(** * 0-1 knapsack over orders: a shallow embedding of [maximum_value.py]

    The Python module offers one entry point, [maximum_value], and three
    solvers: an exhaustive search, a memoized dynamic program and a greedy
    approximation.  This file embeds the four functions and proves the
    properties its specification states about them.

    Modelling conventions.
    - Python integers are [Z].  Orders carry integer [value] and [weight]:
      every statement below is about orders whose values and weights are
      Python ints.  Float values are outside the model.
    - An order is a Python dict, a mutable object.  The caller's dicts live in
      a [heap] addressed by references; the [orders] argument is a list of
      references, so one dict may occur at several positions.
    - The quotient [value / weight] of two integers is the double Python
      computes: the exact quotient rounded to the nearest binary64 number,
      ties to even, and [OverflowError] when that is beyond the double
      range.  Doubles are the [spec_float] of the standard library.
    - Python exceptions are the [Raise] results of [result].
    - The interpreter's recursion limit is an environment setting and is not
      modelled: the call stack is unbounded. *)

From Stdlib Require Import ZArith List Lia Bool Permutation Sorted SpecFloat.
Import ListNotations.
Local Open Scope Z_scope.

(** ** Results and exceptions *)

Inductive exn : Type :=
| IndexError
| ZeroDivisionError
| OverflowError
| KeyError
| TypeError.

Inductive result (A : Type) : Type :=
| Ok (a : A)
| Raise (e : exn).

Arguments Ok {A} a.
Arguments Raise {A} e.

Definition bind {A B : Type} (c : result A) (k : A -> result B) : result B :=
  match c with
  | Ok a => k a
  | Raise e => Raise e
  end.

Notation "x <- c ;; k" := (bind c (fun x => k))
  (at level 61, c at next level, right associativity).

(** ** Orders and the caller's heap *)

(** A Python float: a binary64 number. *)
Definition float : Type := spec_float.
Definition prec : Z := 53.
Definition emax : Z := 1024.

Record order : Type := mkOrder {
  value : Z;
  weight : Z;
  ratio : option float
}.

Definition ref : Type := nat.
Definition heap : Type := ref -> order.

(** [order.update(ratio=q)] on the dict stored at [a]. *)
Definition update_ratio (h : heap) (a : ref) (q : float) : heap :=
  fun b => if Nat.eqb b a
           then mkOrder (value (h a)) (weight (h a)) (Some q)
           else h b.

(** A solver call: it reads and possibly writes the heap, and returns a
    number or raises. *)
Definition Py (A : Type) : Type := heap -> result A * heap.

(** ** Python list indexing *)

(** Index normalisation: [l[k]] accepts [-len <= k < len]. *)
Definition py_index (len : nat) (k : Z) : option nat :=
  if (0 <=? k) && (k <? Z.of_nat len) then Some (Z.to_nat k)
  else if (k <? 0) && (- Z.of_nat len <=? k) then Some (Z.to_nat (Z.of_nat len + k))
  else None.

Definition getitem {A : Type} (l : list A) (k : Z) : result A :=
  match py_index (length l) k with
  | Some n =>
      match nth_error l n with
      | Some x => Ok x
      | None => Raise IndexError
      end
  | None => Raise IndexError
  end.

Fixpoint replace_nth {A : Type} (l : list A) (n : nat) (x : A) : list A :=
  match l, n with
  | [], _ => []
  | _ :: l', O => x :: l'
  | y :: l', S n' => y :: replace_nth l' n' x
  end.

Definition setitem {A : Type} (l : list A) (k : Z) (x : A) : result (list A) :=
  match py_index (length l) k with
  | Some n => Ok (replace_nth l n x)
  | None => Raise IndexError
  end.

(** ** The memoization table of the dynamic program *)

Definition table : Type := list (list Z).

(** [value[i][j]] *)
Definition table_get (tbl : table) (i j : Z) : result Z :=
  row <- getitem tbl i ;;
  getitem row j.

(** [value[i][j] = x] *)
Definition table_set (tbl : table) (i j : Z) (x : Z) : result table :=
  row <- getitem tbl i ;;
  row' <- setitem row j x ;;
  setitem tbl i row'.

(** [[[-1 for _ in range(W + 1)] for _ in range(n + 1)]] *)
Definition fresh_table (n : nat) (W : Z) : table :=
  repeat (repeat (-1) (Z.to_nat (W + 1))) (S n).

(** ** maximum_value_dynamic_solution_memoized *)

Section Memoized.
Variable h : heap.
Variable orders : list ref.

(** [w(i)] and [v(i)] for [i >= 1], given as [i - 1]. *)
Definition w (i' : nat) : result Z :=
  a <- getitem orders (Z.of_nat i') ;;
  Ok (weight (h a)).

Definition v (i' : nat) : result Z :=
  a <- getitem orders (Z.of_nat i') ;;
  Ok (value (h a)).

(** The inner function [m(i, j)]: it returns nothing and fills the
    table.  The first argument only ever counts down from [len(orders)]
    to [0], so it is a [nat]. *)
Fixpoint m (i : nat) (j : Z) (tbl : table) : result table :=
  match i with
  | O => table_set tbl 0 j 0
  | S i' =>
      if j <=? 0 then table_set tbl (Z.of_nat i) j 0
      else
        c <- table_get tbl (Z.of_nat i') j ;;
        tbl1 <- (if c =? -1 then m i' j tbl else Ok tbl) ;;
        wi <- w i' ;;
        if wi >? j then
          x <- table_get tbl1 (Z.of_nat i') j ;;
          table_set tbl1 (Z.of_nat i) j x
        else
          c' <- table_get tbl1 (Z.of_nat i') (j - wi) ;;
          tbl2 <- (if c' =? -1 then m i' (j - wi) tbl1 else Ok tbl1) ;;
          x <- table_get tbl2 (Z.of_nat i') j ;;
          y <- table_get tbl2 (Z.of_nat i') (j - wi) ;;
          vi <- v i' ;;
          table_set tbl2 (Z.of_nat i) j (Z.max x (y + vi))
  end.

Definition memoized_result (W : Z) : result Z :=
  let n := length orders in
  tbl <- m n W (fresh_table n W) ;;
  table_get tbl (Z.of_nat n) W.
End Memoized.

Definition maximum_value_dynamic_solution_memoized
    (orders : list ref) (maximum_weight : Z) : Py Z :=
  fun h => (memoized_result h orders maximum_weight, h).

(** ** maximum_value *)

(** The dispatch on [len(orders) > 990] is commented out in the source:
    the entry point always runs the memoized dynamic program. *)
Definition maximum_value (orders : list ref) (maximum_weight : Z) : Py Z :=
  maximum_value_dynamic_solution_memoized orders maximum_weight.

(** ** Counters *)

(** [Counter(order)] keeps the dict's entries; reading an absent key gives
    [0].  Only the entries ['value'] and ['weight'] are ever read back, so
    the counter keeps these two. *)
Record counter : Type := mkCounter {
  c_value : Z;
  c_weight : Z
}.

Definition Counter (o : order) : counter :=
  mkCounter (value o) (weight o).

(** [Counter.__add__] sums entry by entry and keeps the positive sums; a
    dropped entry then reads as [0]. *)
Definition keep_positive (x : Z) : Z := if 0 <? x then x else 0.

Definition add (a b : counter) : counter :=
  mkCounter (keep_positive (c_value a + c_value b))
            (keep_positive (c_weight a + c_weight b)).

(** [functools.reduce] without initial value. *)
Definition reduce {A : Type} (f : A -> A -> A) (l : list A) : result A :=
  match l with
  | [] => Raise TypeError
  | x :: l' => Ok (fold_left f l' x)
  end.

(** A [for] loop whose body may raise. *)
Fixpoint for_each {A B : Type} (body : A -> B -> result A) (l : list B) (a : A)
  : result A :=
  match l with
  | [] => Ok a
  | x :: l' => a' <- body a x ;; for_each body l' a'
  end.

(** [order for order in orders if not order['weight'] > maximum_weight] *)
Definition fits (h : heap) (maximum_weight : Z) (a : ref) : bool :=
  negb (weight (h a) >? maximum_weight).

(** ** maximum_value_naive *)

(** [itertools.combinations(l, k)], in its lexicographic order. *)
Fixpoint combinations {A : Type} (l : list A) (k : nat) {struct l}
  : list (list A) :=
  match k with
  | O => [[]]
  | S k' =>
      match l with
      | [] => []
      | x :: l' => map (cons x) (combinations l' k') ++ combinations l' k
      end
  end.

(** [range(n, 0, -1)] *)
Definition range_down (n : nat) : list nat := rev (seq 1 n).

Definition naive_body (h : heap) (maximum_weight : Z)
    (max_payload_value : Z) (combination : list ref) : result Z :=
  payload <- reduce add (map (fun a => Counter (h a)) combination) ;;
  if (c_weight payload <=? maximum_weight)
     && (c_value payload >? max_payload_value)
  then Ok (c_value payload)
  else Ok max_payload_value.

Definition naive_result (h : heap) (orders : list ref) (maximum_weight : Z)
  : result Z :=
  let max_payload_value := 0 in
  let orders_filtered := filter (fits h maximum_weight) orders in
  for_each
    (fun acc length =>
       for_each (naive_body h maximum_weight)
                (combinations orders_filtered length) acc)
    (range_down (length orders_filtered)) max_payload_value.

Definition maximum_value_naive (orders : list ref) (maximum_weight : Z) : Py Z :=
  fun h => (naive_result h orders maximum_weight, h).

(** ** maximum_value_greedy_approx *)

(** An integer as an exact, not yet rounded, binary number. *)
Definition exact (z : Z) : float :=
  match z with
  | Z0 => S754_zero false
  | Zpos p => S754_finite false p 0
  | Zneg p => S754_finite true p 0
  end.

(** The exact quotient of two integers rounded once to binary64, to
    nearest with ties to even; an infinity when the rounded quotient is
    beyond the largest double. *)
Definition py_quotient (a b : Z) : float :=
  SFdiv prec emax (exact a) (exact b).

(** [a / b] on integers: a correctly rounded double, [ZeroDivisionError]
    for [b = 0], and [OverflowError] ("integer division result too large
    for a float") when the quotient is out of range.  A tiny quotient
    underflows to a zero.  The rounded quotient is never a NaN
    ([py_quotient_not_nan]). *)
Definition truediv (a b : Z) : result float :=
  if b =? 0 then Raise ZeroDivisionError
  else
    match py_quotient a b with
    | S754_infinity _ => Raise OverflowError
    | S754_nan => Raise OverflowError
    | q => Ok q
    end.

(** [[order.update(ratio=order['value']/order['weight']) for order in l]]:
    the dicts are updated one after the other; a division that raises
    leaves the earlier updates in place. *)
Fixpoint update_ratios (l : list ref) (h : heap) : result unit * heap :=
  match l with
  | [] => (Ok tt, h)
  | a :: l' =>
      match truediv (value (h a)) (weight (h a)) with
      | Ok q => update_ratios l' (update_ratio h a q)
      | Raise e => (Raise e, h)
      end
  end.

(** [o['ratio']] *)
Definition ratio_key (h : heap) (a : ref) : result float :=
  match ratio (h a) with
  | Some q => Ok q
  | None => Raise KeyError
  end.

Fixpoint map_result {A B : Type} (f : A -> result B) (l : list A)
  : result (list B) :=
  match l with
  | [] => Ok []
  | x :: l' => y <- f x ;; ys <- map_result f l' ;; Ok (y :: ys)
  end.

(** [sorted(l, key=..., reverse=True)] compares keys with [<] only and is
    stable: among keys of which none is less than the other (equal
    doubles) the input order is kept.  [x] stood before every element of
    [l], so it goes in front of the first [y] that is not greater. *)
Fixpoint insert_desc (x : float * ref) (l : list (float * ref))
  : list (float * ref) :=
  match l with
  | [] => [x]
  | y :: l' =>
      if SFltb (fst x) (fst y) then y :: insert_desc x l'
      else x :: l
  end.

Definition sorted_desc (l : list (float * ref)) : list (float * ref) :=
  fold_right insert_desc [] l.

Definition sorted_by_ratio (h : heap) (l : list ref) : result (list ref) :=
  keys <- map_result (ratio_key h) l ;;
  Ok (map snd (sorted_desc (combine keys l))).

(** The loop over [sorted_filtered_orders[1:]], with its [break] and
    [continue]. *)
Fixpoint greedy_fill (h : heap) (maximum_weight : Z) (rest : list ref)
    (final_order : list ref) (payload : counter) : result counter :=
  match rest with
  | [] => Ok payload
  | a :: rest' =>
      if c_weight payload =? maximum_weight then Ok payload
      else if c_weight payload + weight (h a) >? maximum_weight
      then greedy_fill h maximum_weight rest' final_order payload
      else
        let final_order' := final_order ++ [a] in
        payload' <- reduce add (map (fun b => Counter (h b)) final_order') ;;
        greedy_fill h maximum_weight rest' final_order' payload'
  end.

Definition greedy_result (h : heap) (filtered_orders : list ref)
    (maximum_weight : Z) : result Z :=
  sorted_filtered_orders <- sorted_by_ratio h filtered_orders ;;
  first <- getitem sorted_filtered_orders 0 ;;
  let final_order := [first] in
  payload <- reduce add (map (fun b => Counter (h b)) final_order) ;;
  payload' <- greedy_fill h maximum_weight (tl sorted_filtered_orders)
                          final_order payload ;;
  Ok (c_value payload').

Definition maximum_value_greedy_approx
    (orders : list ref) (maximum_weight : Z) : Py Z :=
  fun h =>
    let max_payload_value := 0 in
    let filtered_orders := filter (fits h maximum_weight) orders in
    if (length filtered_orders =? 0)%nat then (Ok max_payload_value, h)
    else
      match update_ratios filtered_orders h with
      | (Raise e, h') => (Raise e, h')
      | (Ok _, h') => (greedy_result h' filtered_orders maximum_weight, h')
      end.

(** ** The solvers as programs over the caller's objects *)

(** What the caller passes and can look at afterwards: the list object
    [orders] and the dicts it refers to.  Every access to them is a step of
    the program; the lists, tuples and counters a solver builds for itself
    are values of the program. *)
Record world : Type := mkWorld {
  caller_orders : list ref;
  dicts : heap
}.

Definition Run (A : Type) : Type := world -> result A * world.

Definition ret {A : Type} (a : A) : Run A := fun s => (Ok a, s).

(** A computation that touches no object. *)
Definition lift {A : Type} (r : result A) : Run A := fun s => (r, s).

(** A raise keeps what was written before it. *)
Definition bind_run {A B : Type} (c : Run A) (k : A -> Run B) : Run B :=
  fun s =>
    match c s with
    | (Ok a, s') => k a s'
    | (Raise e, s') => (Raise e, s')
    end.

Notation "x <~ c ;; k" := (bind_run c (fun x => k))
  (at level 61, c at next level, right associativity).

(** [len(orders)], [orders[k]] and the iteration over [orders]. *)
Definition len_orders : Run nat :=
  fun s => (Ok (length (caller_orders s)), s).

Definition orders_getitem (k : Z) : Run ref :=
  fun s => (getitem (caller_orders s) k, s).

Definition iter_orders : Run (list ref) :=
  fun s => (Ok (caller_orders s), s).

(** [order['weight']], [order['value']], [order['ratio']] and
    [Counter(order)] read the dict; [order.update(ratio=q)] writes it. *)
Definition dict_weight (a : ref) : Run Z :=
  fun s => (Ok (weight (dicts s a)), s).

Definition dict_value (a : ref) : Run Z :=
  fun s => (Ok (value (dicts s a)), s).

Definition dict_ratio (a : ref) : Run float :=
  fun s => (ratio_key (dicts s) a, s).

Definition dict_Counter (a : ref) : Run counter :=
  fun s => (Ok (Counter (dicts s a)), s).

Definition dict_update_ratio (a : ref) (q : float) : Run unit :=
  fun s => (Ok tt, mkWorld (caller_orders s) (update_ratio (dicts s) a q)).

Fixpoint for_each_run {A B : Type} (body : A -> B -> Run A) (l : list B) (a : A)
  : Run A :=
  match l with
  | [] => ret a
  | x :: l' => a' <~ body a x ;; for_each_run body l' a'
  end.

Fixpoint map_run {A B : Type} (f : A -> Run B) (l : list A) : Run (list B) :=
  match l with
  | [] => ret []
  | x :: l' => y <~ f x ;; ys <~ map_run f l' ;; ret (y :: ys)
  end.

Fixpoint filter_run {A : Type} (p : A -> Run bool) (l : list A) : Run (list A) :=
  match l with
  | [] => ret []
  | x :: l' =>
      b <~ p x ;; xs <~ filter_run p l' ;; ret (if b then x :: xs else xs)
  end.

(** [not order['weight'] > maximum_weight] *)
Definition fits_run (maximum_weight : Z) (a : ref) : Run bool :=
  wt <~ dict_weight a ;; ret (negb (wt >? maximum_weight)).

(** [reduce(add, map(Counter, l))] *)
Definition payload_run (l : list ref) : Run counter :=
  counters <~ map_run dict_Counter l ;; lift (reduce add counters).

Definition naive_body_run (maximum_weight : Z)
    (max_payload_value : Z) (combination : list ref) : Run Z :=
  payload <~ payload_run combination ;;
  ret (if (c_weight payload <=? maximum_weight)
          && (c_value payload >? max_payload_value)
       then c_value payload
       else max_payload_value).

Definition maximum_value_naive_run (maximum_weight : Z) : Run Z :=
  let max_payload_value := 0 in
  items <~ iter_orders ;;
  orders_filtered <~ filter_run (fits_run maximum_weight) items ;;
  for_each_run
    (fun acc length =>
       for_each_run (naive_body_run maximum_weight)
                    (combinations orders_filtered length) acc)
    (range_down (length orders_filtered)) max_payload_value.

Definition w_run (i' : nat) : Run Z :=
  a <~ orders_getitem (Z.of_nat i') ;; dict_weight a.

Definition v_run (i' : nat) : Run Z :=
  a <~ orders_getitem (Z.of_nat i') ;; dict_value a.

Fixpoint m_run (i : nat) (j : Z) (tbl : table) : Run table :=
  match i with
  | O => lift (table_set tbl 0 j 0)
  | S i' =>
      if j <=? 0 then lift (table_set tbl (Z.of_nat i) j 0)
      else
        c <~ lift (table_get tbl (Z.of_nat i') j) ;;
        tbl1 <~ (if c =? -1 then m_run i' j tbl else ret tbl) ;;
        wi <~ w_run i' ;;
        if wi >? j then
          x <~ lift (table_get tbl1 (Z.of_nat i') j) ;;
          lift (table_set tbl1 (Z.of_nat i) j x)
        else
          c' <~ lift (table_get tbl1 (Z.of_nat i') (j - wi)) ;;
          tbl2 <~ (if c' =? -1 then m_run i' (j - wi) tbl1 else ret tbl1) ;;
          x <~ lift (table_get tbl2 (Z.of_nat i') j) ;;
          y <~ lift (table_get tbl2 (Z.of_nat i') (j - wi)) ;;
          vi <~ v_run i' ;;
          lift (table_set tbl2 (Z.of_nat i) j (Z.max x (y + vi)))
  end.

Definition maximum_value_dynamic_solution_memoized_run (maximum_weight : Z)
  : Run Z :=
  n <~ len_orders ;;
  tbl <~ m_run n maximum_weight (fresh_table n maximum_weight) ;;
  lift (table_get tbl (Z.of_nat n) maximum_weight).

Definition maximum_value_run (maximum_weight : Z) : Run Z :=
  maximum_value_dynamic_solution_memoized_run maximum_weight.

(** [order.update(ratio=order['value']/order['weight'])] *)
Definition update_ratio_run (a : ref) : Run unit :=
  val <~ dict_value a ;;
  wt <~ dict_weight a ;;
  q <~ lift (truediv val wt) ;;
  dict_update_ratio a q.

Fixpoint greedy_fill_run (maximum_weight : Z) (rest : list ref)
    (final_order : list ref) (payload : counter) : Run counter :=
  match rest with
  | [] => ret payload
  | a :: rest' =>
      if c_weight payload =? maximum_weight then ret payload
      else
        wt <~ dict_weight a ;;
        if c_weight payload + wt >? maximum_weight
        then greedy_fill_run maximum_weight rest' final_order payload
        else
          let final_order' := final_order ++ [a] in
          payload' <~ payload_run final_order' ;;
          greedy_fill_run maximum_weight rest' final_order' payload'
  end.

Definition maximum_value_greedy_approx_run (maximum_weight : Z) : Run Z :=
  let max_payload_value := 0 in
  items <~ iter_orders ;;
  filtered_orders <~ filter_run (fits_run maximum_weight) items ;;
  if (length filtered_orders =? 0)%nat then ret max_payload_value
  else
    _ <~ for_each_run (fun _ a => update_ratio_run a) filtered_orders tt ;;
    keys <~ map_run dict_ratio filtered_orders ;;
    let sorted_filtered_orders :=
      map snd (sorted_desc (combine keys filtered_orders)) in
    first <~ lift (getitem sorted_filtered_orders 0) ;;
    let final_order := [first] in
    payload <~ payload_run final_order ;;
    payload' <~ greedy_fill_run maximum_weight (tl sorted_filtered_orders)
                                final_order payload ;;
    ret (c_value payload').

(** ** Example inputs *)

(** The dicts of a list placed on a heap, in order. *)
Definition heap_of (l : list order) : heap :=
  fun a => nth a l (mkOrder 0 0 None).

(** A dict with the two keys ['value'] and ['weight']. *)
Definition new_order (val wt : Z) : order := mkOrder val wt None.

Definition canonical_heap : heap :=
  heap_of [new_order 10 5; new_order 40 4; new_order 30 6; new_order 50 3].

Definition canonical_orders : list ref := [0%nat; 1%nat; 2%nat; 3%nat].

Definition strict_heap : heap :=
  heap_of [new_order 60 10; new_order 100 20; new_order 120 30].

Definition strict_orders : list ref := [0%nat; 1%nat; 2%nat].

Definition zero_weight_heap : heap := heap_of [new_order 5 0; new_order 3 1].

(** The three orders of [strict_heap] and a fourth of weight 51, which is
    repeated [t] times behind them. *)
Definition padded_heap : heap :=
  heap_of [new_order 60 10; new_order 100 20; new_order 120 30; new_order 1 51].

Definition padded_orders (t : nat) : list ref := strict_orders ++ repeat 3%nat t.


(** ** Input conditions and the recurrence *)

Definition nonneg_values (h : heap) (orders : list ref) : Prop :=
  Forall (fun a => 0 <= value (h a)) orders.

Definition nonneg_weights (h : heap) (orders : list ref) : Prop :=
  Forall (fun a => 0 <= weight (h a)) orders.

Definition positive_weights (h : heap) (orders : list ref) : Prop :=
  Forall (fun a => 0 < weight (h a)) orders.

(** The recurrence that [m] memoizes, over the orders taken last first:
    [knap (o_i :: ... :: o_1) j] is what [m(i, j)] stores. *)
Fixpoint knap (l : list order) (j : Z) : Z :=
  match l with
  | [] => 0
  | o :: l' =>
      if j <=? 0 then 0
      else if weight o >? j then knap l' j
      else Z.max (knap l' j) (knap l' (j - weight o) + value o)
  end.

(** The value the recurrence gives to table cell [(i, j)]. *)
Definition M (h : heap) (orders : list ref) (i : nat) (j : Z) : Z :=
  knap (rev (map h (firstn i orders))) j.

(** Table cell [(i, j)] read without bounds check. *)
Definition cell (tbl : table) (i : nat) (j : Z) : Z :=
  nth (Z.to_nat j) (nth i tbl []) 0.

(** A table of [n + 1] rows and [W + 1] columns. *)
Definition table_shape (n : nat) (W : Z) (tbl : table) : Prop :=
  length tbl = S n /\ Forall (fun row => length row = Z.to_nat (W + 1)) tbl.

(** The table after [value[i][j] = x]. *)
Definition table_put (tbl : table) (i : nat) (j : Z) (x : Z) : table :=
  replace_nth tbl i (replace_nth (nth i tbl []) (Z.to_nat j) x).

(** Cell [(a, b)] lies in the table of [maximum_value(orders, W)]. *)
Definition in_table (orders : list ref) (W : Z) (a : nat) (b : Z) : Prop :=
  (a <= length orders)%nat /\ 0 <= b <= W.

(** The cell holds the value of the recurrence. *)
Definition good (h : heap) (orders : list ref) (tbl : table) (a : nat) (b : Z)
  : Prop :=
  cell tbl a b = M h orders a b.

(** Every cell is the sentinel or the value of the recurrence. *)
Definition table_inv (h : heap) (orders : list ref) (W : Z) (tbl : table)
  : Prop :=
  table_shape (length orders) W tbl /\
  forall a b, in_table orders W a b -> cell tbl a b = -1 \/ good h orders tbl a b.

(** [tbl'] keeps what [tbl] had computed. *)
Definition extends (h : heap) (orders : list ref) (W : Z) (tbl tbl' : table)
  : Prop :=
  table_inv h orders W tbl' /\
  forall a b, in_table orders W a b ->
              good h orders tbl a b -> good h orders tbl' a b.

Fixpoint total_value (l : list order) : Z :=
  match l with
  | [] => 0
  | o :: l' => value o + total_value l'
  end.

Fixpoint total_weight (l : list order) : Z :=
  match l with
  | [] => 0
  | o :: l' => weight o + total_weight l'
  end.

(** [y] does not come before [x] by its key. *)
Definition key_ge (x y : float * ref) : Prop := SFltb (fst x) (fst y) = false.

(** Numbers compare as their signs, then exponents, then mantissas. *)
Definition rank (x : float) : Z * Z * Z :=
  match x with
  | S754_finite false m e => (1, e, Zpos m)
  | S754_finite true m e => (-1, - e, Zneg m)
  | _ => (0, 0, 0)
  end.

Definition lex_lt (p q : Z * Z * Z) : Prop :=
  let '(a1, b1, c1) := p in
  let '(a2, b2, c2) := q in
  a1 < a2 \/ (a1 = a2 /\ (b1 < b2 \/ (b1 = b2 /\ c1 < c2))).

(** A combination the exhaustive search can sum without clamping. *)
Definition usable (h : heap) (c : list ref) : Prop :=
  c <> [] /\ nonneg_values h c /\ nonneg_weights h c.

(** [h'] has the values and weights of [h]; ratios may differ. *)
Definition same_contents (h h' : heap) : Prop :=
  forall a, value (h' a) = value (h a) /\ weight (h' a) = weight (h a).

(** The quotient stored by the greedy solver for the dict at [a]. *)
Definition ratio_of (h : heap) (a : ref) : float :=
  py_quotient (value (h a)) (weight (h a)).

(** The division [order['value'] / order['weight']] returns for the dict
    at [a]: the weight is not zero and the quotient is within the double
    range. *)
Definition ratio_defined (h : heap) (a : ref) : Prop :=
  exists q, truediv (value (h a)) (weight (h a)) = Ok q.

(** A double that is a number: a zero or a finite non-zero double. *)
Definition is_number (x : float) : Prop :=
  match x with
  | S754_zero _ | S754_finite _ _ _ => True
  | _ => False
  end.

(** Sub-sequences: [c] keeps some elements of [l], in order. *)
Inductive subseq {A : Type} : list A -> list A -> Prop :=
| subseq_nil : subseq [] []
| subseq_skip x c l : subseq c l -> subseq c (x :: l)
| subseq_take x c l : subseq c l -> subseq (x :: c) (x :: l).

(** ** Lists and tables *)

Lemma py_index_in_range (len : nat) (k : nat) :
  (k < len)%nat -> py_index len (Z.of_nat k) = Some k.
Proof.
  intros Hk. unfold py_index.
  replace (0 <=? Z.of_nat k) with true by (symmetry; apply Z.leb_le; lia).
  replace (Z.of_nat k <? Z.of_nat len) with true by (symmetry; apply Z.ltb_lt; lia).
  cbn. now rewrite Nat2Z.id.
Qed.

Lemma getitem_nat {A : Type} (l : list A) (k : nat) (x : A) :
  nth_error l k = Some x -> getitem l (Z.of_nat k) = Ok x.
Proof.
  intros Hx. unfold getitem.
  rewrite py_index_in_range by (apply nth_error_Some; congruence).
  now rewrite Hx.
Qed.

Lemma getitem_nth {A : Type} (l : list A) (k : nat) (d : A) :
  (k < length l)%nat -> getitem l (Z.of_nat k) = Ok (nth k l d).
Proof.
  intros Hk. apply getitem_nat. now apply nth_error_nth'.
Qed.

Lemma setitem_nat {A : Type} (l : list A) (k : nat) (x : A) :
  (k < length l)%nat -> setitem l (Z.of_nat k) x = Ok (replace_nth l k x).
Proof.
  intros Hk. unfold setitem. now rewrite py_index_in_range.
Qed.

Lemma replace_nth_length {A : Type} (l : list A) (n : nat) (x : A) :
  length (replace_nth l n x) = length l.
Proof.
  revert n; induction l as [|y l IH]; intros [|n]; cbn; auto.
Qed.

Lemma nth_replace_nth_same {A : Type} (l : list A) (n : nat) (x d : A) :
  (n < length l)%nat -> nth n (replace_nth l n x) d = x.
Proof.
  revert n; induction l as [|y l IH]; intros [|n] Hn; cbn in *; try lia; auto.
  apply IH; lia.
Qed.

Lemma nth_replace_nth_other {A : Type} (l : list A) (n k : nat) (x d : A) :
  k <> n -> nth k (replace_nth l n x) d = nth k l d.
Proof.
  revert n k; induction l as [|y l IH]; intros [|n] [|k] Hk; cbn; auto; try lia.
Qed.

Lemma Forall_replace_nth {A : Type} (P : A -> Prop) (l : list A) (n : nat) (x : A) :
  Forall P l -> P x -> Forall P (replace_nth l n x).
Proof.
  intros Hl Hx; revert n; induction Hl; intros [|n]; cbn; auto.
Qed.

Section TableAccess.
Variables (n : nat) (W : Z).
Variable tbl : table.
Hypothesis Hshape : table_shape n W tbl.

Lemma row_length (i : nat) :
  (i <= n)%nat -> length (nth i tbl []) = Z.to_nat (W + 1).
Proof.
  intros Hi. destruct Hshape as [Hlen Hrows].
  rewrite Forall_forall in Hrows. apply Hrows, nth_In. lia.
Qed.

Lemma table_get_cell (i : nat) (j : Z) :
  (i <= n)%nat -> 0 <= j <= W ->
  table_get tbl (Z.of_nat i) j = Ok (cell tbl i j).
Proof.
  intros Hi Hj. unfold table_get, cell.
  rewrite (getitem_nth tbl i []) by (destruct Hshape; lia). cbn.
  rewrite <- (Z2Nat.id j) at 1 by lia.
  apply getitem_nth. rewrite row_length by assumption. lia.
Qed.

Lemma table_set_put (i : nat) (j x : Z) :
  (i <= n)%nat -> 0 <= j <= W ->
  table_set tbl (Z.of_nat i) j x = Ok (table_put tbl i j x).
Proof.
  intros Hi Hj. unfold table_set, table_put.
  rewrite (getitem_nth tbl i []) by (destruct Hshape; lia). cbn.
  rewrite <- (Z2Nat.id j) at 1 by lia.
  rewrite setitem_nat by (rewrite row_length by assumption; lia). cbn.
  apply setitem_nat. destruct Hshape; lia.
Qed.

Lemma table_put_shape (i : nat) (j x : Z) :
  (i <= n)%nat -> table_shape n W (table_put tbl i j x).
Proof.
  intros Hi. destruct Hshape as [Hlen Hrows]. split.
  - unfold table_put. now rewrite replace_nth_length.
  - apply Forall_replace_nth; [assumption|].
    rewrite replace_nth_length. now apply row_length.
Qed.

Lemma cell_put_same (i : nat) (j x : Z) :
  (i <= n)%nat -> 0 <= j <= W -> cell (table_put tbl i j x) i j = x.
Proof.
  intros Hi Hj. unfold cell, table_put.
  rewrite nth_replace_nth_same by (destruct Hshape; lia).
  apply nth_replace_nth_same. rewrite row_length by assumption. lia.
Qed.

Lemma cell_put_other (i a : nat) (j b x : Z) :
  (i <= n)%nat -> 0 <= j -> 0 <= b -> (a <> i \/ b <> j) ->
  cell (table_put tbl i j x) a b = cell tbl a b.
Proof.
  intros Hi Hj Hb Hne. unfold cell, table_put.
  destruct (Nat.eq_dec a i) as [->|Hai].
  - rewrite nth_replace_nth_same by (destruct Hshape; lia).
    apply nth_replace_nth_other. destruct Hne; [congruence|lia].
  - now rewrite nth_replace_nth_other.
Qed.
End TableAccess.

Lemma fresh_table_shape (n : nat) (W : Z) : table_shape n W (fresh_table n W).
Proof.
  split; unfold fresh_table.
  - apply repeat_length.
  - apply Forall_forall. intros row Hrow.
    apply repeat_spec in Hrow. subst. apply repeat_length.
Qed.

Lemma fresh_table_cell (n : nat) (W : Z) (i : nat) (j : Z) :
  (i <= n)%nat -> 0 <= j <= W -> cell (fresh_table n W) i j = -1.
Proof.
  intros Hi Hj. unfold cell, fresh_table.
  rewrite (nth_indep _ [] (repeat (-1) (Z.to_nat (W + 1))))
    by (rewrite repeat_length; lia).
  rewrite nth_repeat.
  rewrite (nth_indep _ 0 (-1)) by (rewrite repeat_length; lia).
  apply nth_repeat.
Qed.

(** ** The memoized dynamic program computes the recurrence *)

Lemma firstn_snoc {A : Type} (l : list A) (i : nat) (x : A) :
  nth_error l i = Some x -> firstn (S i) l = firstn i l ++ [x].
Proof.
  revert i; induction l as [|y l IH]; intros [|i] Hx; cbn in *; try discriminate.
  - now injection Hx as ->.
  - f_equal. now apply IH.
Qed.

Lemma M_zero (h : heap) (orders : list ref) (j : Z) : M h orders 0 j = 0.
Proof. reflexivity. Qed.

Lemma M_succ (h : heap) (orders : list ref) (i : nat) (a : ref) (j : Z) :
  nth_error orders i = Some a ->
  M h orders (S i) j = knap (h a :: rev (map h (firstn i orders))) j.
Proof.
  intros Ha. unfold M. rewrite (firstn_snoc _ _ _ Ha).
  now rewrite map_app, rev_app_distr.
Qed.

Lemma M_all (h : heap) (orders : list ref) (j : Z) :
  M h orders (length orders) j = knap (rev (map h orders)) j.
Proof. unfold M. now rewrite firstn_all. Qed.

Section MemoizedCorrect.
Variable h : heap.
Variable orders : list ref.
Variable W : Z.
Hypothesis Hweights : nonneg_weights h orders.

Abbreviation n := (length orders).
Abbreviation in_table := (in_table orders W).
Abbreviation good := (good h orders).
Abbreviation table_inv := (table_inv h orders W).
Abbreviation extends := (extends h orders W).

Lemma extends_refl tbl : table_inv tbl -> extends tbl tbl.
Proof. intros H; split; auto. Qed.

Lemma extends_trans t1 t2 t3 : extends t1 t2 -> extends t2 t3 -> extends t1 t3.
Proof. intros [_ H12] [H3 H23]; split; auto. Qed.

Lemma put_extends tbl i j :
  table_inv tbl -> in_table i j ->
  extends tbl (table_put tbl i j (M h orders i j)) /\
  good (table_put tbl i j (M h orders i j)) i j.
Proof.
  intros [Hsh Hinv] [Hi Hj].
  assert (Hsame : good (table_put tbl i j (M h orders i j)) i j)
    by (apply (cell_put_same n W); assumption).
  assert (Hoth : forall a b, in_table a b -> (a <> i \/ b <> j) ->
            cell (table_put tbl i j (M h orders i j)) a b = cell tbl a b).
  { intros a b [Ha Hb] Hne. apply (cell_put_other n W); auto; lia. }
  split; [|assumption]. split; [split|].
  - now apply table_put_shape.
  - intros a b Hab.
    destruct (Nat.eq_dec a i) as [->|Hai];
      [destruct (Z.eq_dec b j) as [->|Hbj]|]; [now right| |];
      (unfold good; rewrite Hoth by auto; now apply Hinv).
  - intros a b Hab Hg.
    destruct (Nat.eq_dec a i) as [->|Hai];
      [destruct (Z.eq_dec b j) as [->|Hbj]|]; [assumption| |];
      (unfold good; rewrite Hoth by auto; exact Hg).
Qed.

Lemma weight_at (i : nat) :
  (i < n)%nat ->
  exists a, nth_error orders i = Some a /\ 0 <= weight (h a).
Proof.
  intros Hi. destruct (nth_error orders i) as [a|] eqn:Ha.
  - exists a; split; [reflexivity|].
    unfold nonneg_weights in Hweights. rewrite Forall_forall in Hweights.
    eapply Hweights, nth_error_In, Ha.
  - apply nth_error_None in Ha. lia.
Qed.

(** The guarded recursive call [if value[i][j] == -1: m(i, j)]. *)
Lemma ensure_cell (i : nat) (j : Z) (tbl : table) :
  (forall tbl0, table_inv tbl0 ->
     exists tbl', m h orders i j tbl0 = Ok tbl' /\ extends tbl0 tbl' /\ good tbl' i j) ->
  table_inv tbl -> in_table i j ->
  exists tbl',
    (if cell tbl i j =? -1 then m h orders i j tbl else Ok tbl) = Ok tbl' /\
    extends tbl tbl' /\ good tbl' i j.
Proof.
  intros IH Hinv Hij.
  destruct (cell tbl i j =? -1) eqn:Hc.
  - now apply IH.
  - exists tbl. split; [reflexivity|]. split; [now apply extends_refl|].
    destruct Hinv as [_ Hinv]. destruct (Hinv i j Hij) as [E|E]; [|assumption].
    apply Z.eqb_neq in Hc. contradiction.
Qed.

Theorem m_correct (i : nat) :
  forall (j : Z) (tbl : table),
    in_table i j -> table_inv tbl ->
    exists tbl', m h orders i j tbl = Ok tbl' /\ extends tbl tbl' /\ good tbl' i j.
Proof.
  induction i as [|i IH]; intros j tbl Hij Hinv.
  - exists (table_put tbl 0 j (M h orders 0 j)).
    destruct Hij as [Hi Hj]. split.
    + cbn [m]. change 0 with (Z.of_nat 0) at 1.
      rewrite (table_set_put n W) by (try apply Hinv; auto).
      now rewrite M_zero.
    + apply put_extends; [assumption|split; assumption].
  - assert (Hi : (i < n)%nat) by (destruct Hij; lia).
    destruct (weight_at i Hi) as (a & Ha & Hwa).
    assert (Hput : forall t, table_inv t ->
              table_set t (Z.of_nat (S i)) j (M h orders (S i) j)
              = Ok (table_put t (S i) j (M h orders (S i) j))).
    { intros t Ht. apply (table_set_put n W); try apply Ht; apply Hij. }
    cbn [m]. destruct (j <=? 0) eqn:Hj0.
    + exists (table_put tbl (S i) j (M h orders (S i) j)). split.
      * rewrite <- Hput by assumption. f_equal.
        rewrite (M_succ _ _ _ _ _ Ha). cbn [knap]. now rewrite Hj0.
      * now apply put_extends.
    + apply Z.leb_gt in Hj0.
      assert (Hij' : in_table i j) by (destruct Hij; split; lia).
      rewrite (table_get_cell n W) by (try apply Hinv; apply Hij'). cbn [bind].
      destruct (ensure_cell i j tbl (fun t Ht => IH j t Hij' Ht) Hinv Hij')
        as (tbl1 & E1 & Hext1 & Hg1).
      rewrite E1. cbn [bind].
      unfold w. rewrite (getitem_nat _ _ _ Ha). cbn [bind].
      assert (Hinv1 : table_inv tbl1) by apply Hext1.
      destruct (weight (h a) >? j) eqn:Hwj.
      * rewrite (table_get_cell n W) by (try apply Hinv1; apply Hij').
        cbn [bind]. rewrite Hg1.
        exists (table_put tbl1 (S i) j (M h orders (S i) j)). split.
        -- rewrite <- Hput by assumption. f_equal.
           rewrite (M_succ _ _ _ _ _ Ha). cbn [knap].
           replace (j <=? 0) with false by (symmetry; apply Z.leb_gt; lia).
           now rewrite Hwj.
        -- destruct (put_extends tbl1 (S i) j Hinv1 Hij) as [Hext Hg].
           split; [eapply extends_trans; eassumption|assumption].
      * assert (Hwle : weight (h a) <= j)
          by (pose proof (Zgt_cases (weight (h a)) j) as Hc; rewrite Hwj in Hc; exact Hc).
        assert (Hij2 : in_table i (j - weight (h a)))
          by (destruct Hij'; split; lia).
        rewrite (table_get_cell n W) by (try apply Hinv1; apply Hij2).
        cbn [bind].
        destruct (ensure_cell i (j - weight (h a)) tbl1
                    (fun t Ht => IH _ t Hij2 Ht) Hinv1 Hij2)
          as (tbl2 & E2 & Hext2 & Hg2).
        rewrite E2. cbn [bind].
        assert (Hinv2 : table_inv tbl2) by apply Hext2.
        assert (Hg1' : good tbl2 i j) by (apply Hext2; assumption).
        rewrite (table_get_cell n W) by (try apply Hinv2; apply Hij').
        cbn [bind].
        rewrite (table_get_cell n W) by (try apply Hinv2; apply Hij2).
        cbn [bind]. unfold v. rewrite (getitem_nat _ _ _ Ha). cbn [bind].
        rewrite Hg1', Hg2.
        exists (table_put tbl2 (S i) j (M h orders (S i) j)). split.
        -- rewrite <- Hput by assumption. f_equal.
           rewrite (M_succ _ _ _ _ _ Ha). cbn [knap].
           replace (j <=? 0) with false by (symmetry; apply Z.leb_gt; lia).
           now rewrite Hwj.
        -- destruct (put_extends tbl2 (S i) j Hinv2 Hij) as [Hext Hg].
           split; [|assumption].
           eapply extends_trans; [eassumption|].
           eapply extends_trans; eassumption.
Qed.

Lemma fresh_table_inv : 0 <= W -> table_inv (fresh_table n W).
Proof.
  intros HW. split; [apply fresh_table_shape|].
  intros a b [Ha Hb]. left. now apply fresh_table_cell.
Qed.

(** The call [m(n, W)] on the fresh table succeeds and leaves the value
    of the recurrence in cell [(n, W)], which is what is returned. *)
Theorem memoized_result_knap :
  0 <= W -> memoized_result h orders W = Ok (knap (rev (map h orders)) W).
Proof.
  intros HW. unfold memoized_result. cbv zeta.
  assert (Hin : in_table n W) by (split; [|split]; lia).
  destruct (m_correct n W (fresh_table n W) Hin (fresh_table_inv HW))
    as (tbl & E & Hext & Hg).
  rewrite E. cbn [bind].
  rewrite (table_get_cell n W) by (try apply Hext; apply Hin).
  rewrite Hg. now rewrite M_all.
Qed.
End MemoizedCorrect.

(** ** Properties of the recurrence *)

Lemma gtb_false_le (a b : Z) : (a >? b) = false -> a <= b.
Proof. intros H. pose proof (Zgt_cases a b) as Hc. now rewrite H in Hc. Qed.

Lemma gtb_true_lt (a b : Z) : (a >? b) = true -> b < a.
Proof. intros H. pose proof (Zgt_cases a b) as Hc. rewrite H in Hc. lia. Qed.

Lemma knap_nonpos (l : list order) (j : Z) : j <= 0 -> knap l j = 0.
Proof.
  intros Hj. destruct l as [|o l]; [reflexivity|].
  cbn. now replace (j <=? 0) with true by (symmetry; apply Z.leb_le; lia).
Qed.

Lemma knap_cons_pos (o : order) (l : list order) (j : Z) :
  0 < j ->
  knap (o :: l) j =
  if weight o >? j then knap l j
  else Z.max (knap l j) (knap l (j - weight o) + value o).
Proof.
  intros Hj. cbn.
  now replace (j <=? 0) with false by (symmetry; apply Z.leb_gt; lia).
Qed.

Lemma knap_nonneg (l : list order) :
  Forall (fun o => 0 <= value o) l -> forall j, 0 <= knap l j.
Proof.
  induction 1 as [|o l Ho Hl IH]; intros j; [reflexivity|].
  destruct (Z_le_gt_dec j 0) as [Hj|Hj].
  - rewrite knap_nonpos by assumption. lia.
  - rewrite knap_cons_pos by lia.
    destruct (weight o >? j); [apply IH|]. specialize (IH j). lia.
Qed.

Lemma knap_cons_ge (o : order) (l : list order) (j : Z) :
  knap l j <= knap (o :: l) j.
Proof.
  destruct (Z_le_gt_dec j 0) as [Hj|Hj].
  - rewrite !knap_nonpos by assumption. lia.
  - rewrite knap_cons_pos by lia. destruct (weight o >? j); lia.
Qed.

Lemma knap_monotone (l : list order) :
  Forall (fun o => 0 <= value o) l ->
  forall j1 j2, j1 <= j2 -> knap l j1 <= knap l j2.
Proof.
  induction 1 as [|o l Ho Hl IH]; intros j1 j2 Hj; [reflexivity|].
  destruct (Z_le_gt_dec j1 0) as [Hj1|Hj1].
  - rewrite (knap_nonpos _ j1) by assumption.
    apply knap_nonneg. now constructor.
  - rewrite !knap_cons_pos by lia.
    destruct (weight o >? j1) eqn:H1; destruct (weight o >? j2) eqn:H2.
    + now apply IH.
    + specialize (IH j1 j2 Hj). lia.
    + apply gtb_false_le in H1. apply gtb_true_lt in H2. lia.
    + pose proof (IH j1 j2 Hj).
      pose proof (IH (j1 - weight o) (j2 - weight o) ltac:(lia)). lia.
Qed.

Lemma knap_skip_heavy (l1 l2 : list order) (j : Z) :
  Forall (fun o => j < weight o) l1 -> knap (l1 ++ l2) j = knap l2 j.
Proof.
  induction 1 as [|o l1 Ho Hl IH]; [reflexivity|].
  destruct (Z_le_gt_dec j 0) as [Hj|Hj].
  - now rewrite !knap_nonpos.
  - cbn [app]. rewrite knap_cons_pos by lia.
    now replace (weight o >? j) with true by (symmetry; apply Z.gtb_lt; lia).
Qed.

Lemma knap_all_heavy (l : list order) (j : Z) :
  Forall (fun o => j < weight o) l -> knap l j = 0.
Proof.
  intros Hl. rewrite <- (app_nil_r l). now rewrite knap_skip_heavy.
Qed.

Lemma Forall_rev_map (P : order -> Prop) (h : heap) (orders : list ref) :
  Forall (fun a => P (h a)) orders -> Forall P (rev (map h orders)).
Proof. intros Hl. apply Forall_rev. now apply Forall_map. Qed.

(** ** The entry point *)

Lemma maximum_value_knap (h : heap) (orders : list ref) (W : Z) :
  nonneg_weights h orders -> 0 <= W ->
  fst (maximum_value orders W h) = Ok (knap (rev (map h orders)) W).
Proof. intros Hw HW. cbn. now apply memoized_result_knap. Qed.

(** C3: on the canonical scenario (values 10, 40, 30, 50 with weights
    5, 4, 6, 3 and capacity 10) [maximum_value] returns 90. *)
Theorem canonical_scenario :
  fst (maximum_value canonical_orders 10 canonical_heap) = Ok 90.
Proof. vm_compute. reflexivity. Qed.

(** C7: with non-negative values and weights, a larger capacity never
    lowers the result of [maximum_value]. *)
Theorem maximum_value_monotone_capacity
    (h : heap) (orders : list ref) (W1 W2 : Z) :
  nonneg_values h orders -> nonneg_weights h orders ->
  0 <= W1 -> W1 <= W2 ->
  exists r1 r2,
    fst (maximum_value orders W1 h) = Ok r1 /\
    fst (maximum_value orders W2 h) = Ok r2 /\
    r1 <= r2.
Proof.
  intros Hv Hw H1 H12.
  exists (knap (rev (map h orders)) W1), (knap (rev (map h orders)) W2).
  repeat split; try (apply maximum_value_knap; auto; lia).
  apply knap_monotone; [|assumption].
  now apply (Forall_rev_map (fun o => 0 <= value o)).
Qed.

(** C8: appending an order [o] of non-negative weight to a list of orders
    of non-negative weight never lowers the result of [maximum_value]. *)
Theorem maximum_value_monotone_orders
    (h : heap) (orders : list ref) (o : ref) (W : Z) :
  nonneg_weights h orders ->
  0 <= value (h o) -> 0 <= weight (h o) -> 0 <= W ->
  exists r r',
    fst (maximum_value orders W h) = Ok r /\
    fst (maximum_value (orders ++ [o]) W h) = Ok r' /\
    r <= r'.
Proof.
  intros Hw Hvo Hwo HW.
  exists (knap (rev (map h orders)) W), (knap (rev (map h (orders ++ [o]))) W).
  repeat split.
  - now apply maximum_value_knap.
  - apply maximum_value_knap; [|assumption].
    apply Forall_app; split; [assumption|]. now constructor.
  - rewrite map_app, rev_app_distr. cbn [map rev app]. apply knap_cons_ge.
Qed.

Lemma maximum_value_capacity_zero (h : heap) (orders : list ref) :
  fst (maximum_value orders 0 h) = Ok 0.
Proof.
  cbn. unfold memoized_result. cbv zeta.
  set (n := length orders).
  pose proof (fresh_table_shape n 0) as Hsh.
  assert (E : m h orders n 0 (fresh_table n 0)
              = Ok (table_put (fresh_table n 0) n 0 0)).
  { destruct n as [|k]; cbn [m].
    - exact (table_set_put 0 0 _ Hsh 0%nat 0 0 ltac:(lia) ltac:(lia)).
    - change (0 <=? 0) with true. cbv iota.
      exact (table_set_put (S k) 0 _ Hsh (S k) 0 0 ltac:(lia) ltac:(lia)). }
  rewrite E. cbn [bind].
  rewrite (table_get_cell n 0) by (try apply table_put_shape; auto; lia).
  f_equal. apply (cell_put_same n 0); auto; lia.
Qed.

(** C9: [maximum_value] returns 0 on no orders, on capacity 0, and when
    every order is heavier than the capacity. *)
Theorem zero_cases :
  (forall h W, 0 <= W -> fst (maximum_value [] W h) = Ok 0) /\
  (forall h orders, fst (maximum_value orders 0 h) = Ok 0) /\
  (forall h orders W,
      0 <= W -> Forall (fun a => W < weight (h a)) orders ->
      fst (maximum_value orders W h) = Ok 0).
Proof.
  split; [|split].
  - intros h W HW. rewrite maximum_value_knap by (auto; constructor).
    reflexivity.
  - apply maximum_value_capacity_zero.
  - intros h orders W HW Hheavy.
    rewrite maximum_value_knap; auto.
    + f_equal. apply knap_all_heavy.
      now apply (Forall_rev_map (fun o => W < weight o)).
    + eapply Forall_impl; [|exact Hheavy]. cbn. intros; lia.
Qed.

(** C10: on non-negative values and weights and a non-negative capacity,
    the call [m(n, W)] on the fresh table succeeds and overwrites the
    sentinel of cell [(n, W)] with a non-negative number, which the solver
    returns: the result is never the sentinel -1. *)
Theorem sentinel_never_escapes (h : heap) (orders : list ref) (W : Z) :
  nonneg_values h orders -> nonneg_weights h orders -> 0 <= W ->
  let n := length orders in
  exists tbl r,
    cell (fresh_table n W) n W = -1 /\
    m h orders n W (fresh_table n W) = Ok tbl /\
    cell tbl n W = r /\
    fst (maximum_value_dynamic_solution_memoized orders W h) = Ok r /\
    0 <= r /\ r <> -1.
Proof.
  intros Hv Hw HW n.
  assert (Hin : in_table orders W n W) by (split; [|split]; subst n; lia).
  destruct (m_correct h orders W Hw n W (fresh_table n W) Hin
              (fresh_table_inv h orders W HW)) as (tbl & E & Hext & Hg).
  assert (Hr : 0 <= knap (rev (map h orders)) W).
  { apply knap_nonneg. now apply (Forall_rev_map (fun o => 0 <= value o)). }
  exists tbl, (knap (rev (map h orders)) W). repeat split.
  - apply fresh_table_cell; auto; lia.
  - exact E.
  - rewrite Hg. apply M_all.
  - cbn. now apply memoized_result_knap.
  - exact Hr.
  - lia.
Qed.

(** ** Counters of non-negative orders are plain sums *)

Lemma keep_positive_nonneg (x : Z) : 0 <= x -> keep_positive x = x.
Proof.
  intros Hx. unfold keep_positive. destruct (0 <? x) eqn:E; [reflexivity|].
  apply Z.ltb_ge in E. lia.
Qed.

Lemma total_value_nonneg (l : list order) :
  Forall (fun o => 0 <= value o) l -> 0 <= total_value l.
Proof. induction 1; cbn; lia. Qed.

Lemma total_weight_nonneg (l : list order) :
  Forall (fun o => 0 <= weight o) l -> 0 <= total_weight l.
Proof. induction 1; cbn; lia. Qed.

Lemma total_value_app (l1 l2 : list order) :
  total_value (l1 ++ l2) = total_value l1 + total_value l2.
Proof. induction l1; cbn; lia. Qed.

Lemma total_weight_app (l1 l2 : list order) :
  total_weight (l1 ++ l2) = total_weight l1 + total_weight l2.
Proof. induction l1; cbn; lia. Qed.

Lemma fold_add_sums (l : list order) :
  Forall (fun o => 0 <= value o) l -> Forall (fun o => 0 <= weight o) l ->
  forall acc, 0 <= c_value acc -> 0 <= c_weight acc ->
  fold_left add (map Counter l) acc =
  mkCounter (c_value acc + total_value l) (c_weight acc + total_weight l).
Proof.
  induction l as [|o l IH]; intros Hv Hw acc Hav Haw.
  - destruct acc as [av aw]. cbn. now rewrite !Z.add_0_r.
  - inversion Hv; inversion Hw; subst. cbn [map fold_left].
    pose proof (total_value_nonneg l ltac:(assumption)).
    pose proof (total_weight_nonneg l ltac:(assumption)).
    rewrite IH; try assumption; cbn;
      rewrite ?keep_positive_nonneg by lia; try lia.
    f_equal; lia.
Qed.

Lemma reduce_add_sums (l : list order) :
  l <> [] ->
  Forall (fun o => 0 <= value o) l -> Forall (fun o => 0 <= weight o) l ->
  reduce add (map Counter l) = Ok (mkCounter (total_value l) (total_weight l)).
Proof.
  intros Hne Hv Hw. destruct l as [|o l]; [congruence|].
  inversion Hv; inversion Hw; subst. cbn [map reduce].
  rewrite fold_add_sums by (cbn; assumption). reflexivity.
Qed.

(** ** The heap after the greedy solver's updates *)


Lemma same_contents_refl (h : heap) : same_contents h h.
Proof. intros a; split; reflexivity. Qed.

Lemma same_contents_trans (h1 h2 h3 : heap) :
  same_contents h1 h2 -> same_contents h2 h3 -> same_contents h1 h3.
Proof.
  intros H12 H23 a. destruct (H12 a), (H23 a). split; congruence.
Qed.

Lemma update_ratio_same_contents (h : heap) (a : ref) (q : float) :
  same_contents h (update_ratio h a q).
Proof.
  intros b. unfold update_ratio. destruct (Nat.eqb_spec b a) as [->|Hne]; cbn; auto.
Qed.

Lemma total_value_same_contents (h h' : heap) (l : list ref) :
  same_contents h h' -> total_value (map h' l) = total_value (map h l).
Proof.
  intros Hs. induction l as [|a l IH]; cbn; [reflexivity|].
  destruct (Hs a) as [-> _]. now rewrite IH.
Qed.

Lemma total_weight_same_contents (h h' : heap) (l : list ref) :
  same_contents h h' -> total_weight (map h' l) = total_weight (map h l).
Proof.
  intros Hs. induction l as [|a l IH]; cbn; [reflexivity|].
  destruct (Hs a) as [_ ->]. now rewrite IH.
Qed.


Lemma filter_fits_same_contents (h h' : heap) (W : Z) (l : list ref) :
  same_contents h h' -> filter (fits h' W) l = filter (fits h W) l.
Proof.
  intros Hs. apply filter_ext. intros a. unfold fits.
  now destruct (Hs a) as [_ ->].
Qed.

(** The updates never touch a value or a weight, and leave every dict
    outside [l] as it was; this holds also when a division raises. *)
Lemma update_ratios_frame (l : list ref) :
  forall h,
    same_contents h (snd (update_ratios l h)) /\
    forall a, ~ In a l -> snd (update_ratios l h) a = h a.
Proof.
  induction l as [|a l IH]; intros h; cbn [update_ratios].
  - split; [apply same_contents_refl|reflexivity].
  - destruct (truediv (value (h a)) (weight (h a))) as [q|e].
    + destruct (IH (update_ratio h a q)) as [Hs Hout]. split.
      * eapply same_contents_trans; [apply update_ratio_same_contents|exact Hs].
      * intros b Hb. rewrite Hout by (intros Hin; apply Hb; now right).
        unfold update_ratio. destruct (Nat.eqb_spec b a) as [->|Hne];
          [exfalso; apply Hb; now left|reflexivity].
    + split; [apply same_contents_refl|reflexivity].
Qed.

Lemma ratio_of_same_contents (h h' : heap) (a : ref) :
  same_contents h h' -> ratio_of h' a = ratio_of h a.
Proof. intros Hs. unfold ratio_of. now destruct (Hs a) as [-> ->]. Qed.

(** ** The rounded quotient is a number or an infinity *)

Lemma shr_1_nonneg (mrs : shr_record) :
  0 <= shr_m mrs -> 0 <= shr_m (shr_1 mrs).
Proof.
  destruct mrs as [mm r t]. cbn [shr_m]. intros Hm.
  destruct mm as [|p|p]; [cbn; lia| |lia].
  destruct p; cbn; lia.
Qed.

Lemma iter_shr_1_nonneg (p : positive) :
  forall mrs, 0 <= shr_m mrs -> 0 <= shr_m (iter_pos shr_1 p mrs).
Proof.
  induction p as [p IH|p IH|]; intros mrs Hm; cbn [iter_pos].
  - now apply IH, IH, shr_1_nonneg.
  - now apply IH, IH.
  - now apply shr_1_nonneg.
Qed.

Lemma shr_fexp_nonneg (mm e : Z) (l : location) :
  0 <= mm -> 0 <= shr_m (fst (shr_fexp prec emax mm e l)).
Proof.
  intros Hm. unfold shr_fexp, shr.
  assert (H0 : 0 <= shr_m (shr_record_of_loc mm l))
    by (destruct l as [|[| |]]; exact Hm).
  destruct (fexp prec emax (Zdigits2 mm + e) - e) as [|p|p]; cbn [fst];
    [exact H0| |exact H0].
  now apply iter_shr_1_nonneg.
Qed.

Lemma round_nearest_even_nonneg (mm : Z) (l : location) :
  0 <= mm -> 0 <= round_nearest_even mm l.
Proof.
  intros Hm. unfold round_nearest_even.
  destruct l as [|[| |]]; [lia| |lia|lia].
  destruct (Z.even mm); lia.
Qed.

Lemma binary_round_aux_not_nan (sx : bool) (mm e : Z) (l : location) :
  0 <= mm -> binary_round_aux prec emax sx mm e l <> S754_nan.
Proof.
  intros Hm. unfold binary_round_aux.
  pose proof (shr_fexp_nonneg mm e l Hm) as H1.
  destruct (shr_fexp prec emax mm e l) as [mrs' e']. cbn [fst] in H1.
  pose proof (shr_fexp_nonneg
                (round_nearest_even (shr_m mrs') (loc_of_shr_record mrs'))
                e' loc_Exact
                (round_nearest_even_nonneg _ _ H1)) as H2.
  destruct (shr_fexp prec emax _ e' loc_Exact) as [mrs'' e''].
  cbn [fst] in H2.
  destruct (shr_m mrs'') as [|p|p]; [discriminate| |lia].
  destruct (e'' <=? emax - prec); discriminate.
Qed.

Lemma SFdiv_core_nonneg (m1 m2 : positive) (e1 e2 : Z) :
  0 <= fst (fst (SFdiv_core_binary prec emax (Zpos m1) e1 (Zpos m2) e2)).
Proof.
  unfold SFdiv_core_binary.
  set (sh := e1 - e2 - _).
  set (m' := match sh with Z0 => Zpos m1 | Zpos _ => Z.shiftl (Zpos m1) sh
                         | Zneg _ => 0 end).
  assert (Hm' : 0 <= m').
  { unfold m'. destruct sh; [lia| |lia]. apply Z.shiftl_nonneg. lia. }
  pose proof (Z_div_mod m' (Zpos m2) ltac:(lia)) as Hdiv.
  destruct (Z.div_eucl m' (Zpos m2)) as [q r]. cbn [fst].
  destruct Hdiv as [Heq Hr]. nia.
Qed.

(** A division by a non-zero integer never gives a NaN. *)
Lemma py_quotient_not_nan (a b : Z) : b <> 0 -> py_quotient a b <> S754_nan.
Proof.
  intros Hb. unfold py_quotient, exact.
  destruct b as [|pb|pb]; [contradiction| |];
    destruct a as [|pa|pa]; cbn [SFdiv]; try discriminate;
    match goal with
    | |- context [SFdiv_core_binary prec emax (Zpos ?m1) ?e1 (Zpos ?m2) ?e2] =>
        pose proof (SFdiv_core_nonneg m1 m2 e1 e2) as Hq;
        destruct (SFdiv_core_binary prec emax (Zpos m1) e1 (Zpos m2) e2)
          as [[mz ez] lz]; cbn [fst] in Hq;
        now apply binary_round_aux_not_nan
    end.
Qed.

(** *** The range of the rounded quotient *)

Lemma Zdigits2_le (mm k : Z) : 0 <= k -> 0 <= mm < 2 ^ k -> Zdigits2 mm <= k.
Proof.
  intros Hk [H0 Hm]. destruct mm as [|p|p]; [exact Hk| |lia].
  cbn [Zdigits2]. clear H0. revert k Hk Hm.
  induction p as [p IH|p IH|]; intros k Hk Hm; cbn [digits2_pos].
  - assert (k <> 0) by (intros ->; cbn in Hm; lia).
    replace k with (Z.succ (k - 1)) in Hm by lia.
    rewrite Z.pow_succ_r in Hm by lia.
    specialize (IH (k - 1) ltac:(lia) ltac:(lia)). lia.
  - assert (k <> 0) by (intros ->; cbn in Hm; lia).
    replace k with (Z.succ (k - 1)) in Hm by lia.
    rewrite Z.pow_succ_r in Hm by lia.
    specialize (IH (k - 1) ltac:(lia) ltac:(lia)). lia.
  - assert (k <> 0) by (intros ->; cbn in Hm; lia). lia.
Qed.

Lemma shr_1_le (mrs : shr_record) :
  0 <= shr_m mrs -> 2 * shr_m (shr_1 mrs) <= shr_m mrs.
Proof.
  destruct mrs as [mm r t]. cbn [shr_m]. intros Hm.
  destruct mm as [|p|p]; [cbn; lia| |lia].
  destruct p; cbn [shr_1 shr_m]; lia.
Qed.

Lemma iter_shr_1_le (p : positive) :
  forall mrs,
    0 <= shr_m mrs -> 2 ^ Zpos p * shr_m (iter_pos shr_1 p mrs) <= shr_m mrs.
Proof.
  induction p as [p IH|p IH|]; intros mrs Hm; cbn [iter_pos].
  - pose proof (shr_1_nonneg mrs Hm) as H1.
    pose proof (shr_1_le mrs Hm) as L1.
    pose proof (iter_shr_1_nonneg p _ H1) as H2.
    pose proof (IH _ H1) as L2.
    pose proof (IH _ H2) as L3.
    pose proof (iter_shr_1_nonneg p _ H2) as H3.
    assert (E : 2 ^ Z.pos p~1 = 2 * (2 ^ Z.pos p * 2 ^ Z.pos p)).
    { replace (Z.pos p~1) with (Z.succ (Z.pos p + Z.pos p)) by lia.
      rewrite Z.pow_succ_r, Z.pow_add_r by lia. reflexivity. }
    rewrite E.
    assert (0 < 2 ^ Z.pos p) by (apply Z.pow_pos_nonneg; lia).
    nia.
  - pose proof (iter_shr_1_nonneg p _ Hm) as H2.
    pose proof (IH _ Hm) as L2.
    pose proof (IH _ H2) as L3.
    pose proof (iter_shr_1_nonneg p _ H2) as H3.
    assert (E : 2 ^ Z.pos p~0 = 2 ^ Z.pos p * 2 ^ Z.pos p).
    { replace (Z.pos p~0) with (Z.pos p + Z.pos p) by lia.
      rewrite Z.pow_add_r by lia. reflexivity. }
    rewrite E.
    assert (0 < 2 ^ Z.pos p) by (apply Z.pow_pos_nonneg; lia).
    nia.
  - change (2 ^ 1) with 2. now apply shr_1_le.
Qed.

Lemma fexp_le (x k : Z) : x <= k -> fexp prec emax x <= fexp prec emax k.
Proof. unfold fexp. lia. Qed.

(** Shifting to the exponent of the format keeps a value below [2 ^ k]
    below it. *)
Lemma shr_fexp_bound (mm e : Z) (l : location) (k : Z) :
  0 <= mm -> e <= fexp prec emax k -> fexp prec emax k <= k ->
  mm < 2 ^ (k - e) ->
  e <= snd (shr_fexp prec emax mm e l) <= fexp prec emax k /\
  0 <= shr_m (fst (shr_fexp prec emax mm e l))
  < 2 ^ (k - snd (shr_fexp prec emax mm e l)).
Proof.
  intros Hm He Hk Hlt.
  assert (Hd : Zdigits2 mm + e <= k).
  { pose proof (Zdigits2_le mm (k - e) ltac:(lia) ltac:(lia)). lia. }
  apply fexp_le in Hd.
  assert (H0 : shr_m (shr_record_of_loc mm l) = mm)
    by (destruct l as [|[| |]]; reflexivity).
  unfold shr_fexp, shr.
  destruct (fexp prec emax (Zdigits2 mm + e) - e) as [|p|p] eqn:En;
    cbn [fst snd]; rewrite ?H0.
  - split; lia.
  - pose proof (iter_shr_1_le p (shr_record_of_loc mm l) ltac:(lia)) as L.
    pose proof (iter_shr_1_nonneg p (shr_record_of_loc mm l) ltac:(lia)) as N.
    rewrite H0 in L.
    split; [lia|]. split; [exact N|].
    replace (k - e) with (Z.pos p + (k - (e + Z.pos p))) in Hlt by lia.
    rewrite Z.pow_add_r in Hlt by lia.
    assert (0 < 2 ^ Z.pos p) by (apply Z.pow_pos_nonneg; lia).
    nia.
  - split; lia.
Qed.

Lemma round_nearest_even_le (mm : Z) (l : location) :
  mm <= round_nearest_even mm l <= mm + 1.
Proof.
  unfold round_nearest_even.
  destruct l as [|[| |]]; [lia| |lia|lia].
  destruct (Z.even mm); lia.
Qed.

(** Rounding a value below [2 ^ 1023] does not leave the range of the
    format. *)
Lemma binary_round_aux_in_range (sx : bool) (mm e : Z) (l : location) :
  0 <= mm -> e <= 0 -> mm < 2 ^ (1023 - e) ->
  forall s, binary_round_aux prec emax sx mm e l <> S754_infinity s.
Proof.
  intros Hm He Hlt s.
  assert (F1 : fexp prec emax 1023 = 970) by reflexivity.
  assert (F2 : fexp prec emax 1024 = 971) by reflexivity.
  unfold binary_round_aux.
  pose proof (shr_fexp_bound mm e l 1023 Hm ltac:(lia) ltac:(lia) Hlt)
    as [He' Hm'].
  destruct (shr_fexp prec emax mm e l) as [mrs' e']. cbn [fst snd] in *.
  pose proof (round_nearest_even_le (shr_m mrs') (loc_of_shr_record mrs'))
    as Hr.
  set (m1 := round_nearest_even (shr_m mrs') (loc_of_shr_record mrs')) in *.
  assert (Hlt1 : m1 < 2 ^ (1024 - e')).
  { replace (1024 - e') with (Z.succ (1023 - e')) by lia.
    rewrite Z.pow_succ_r by lia. lia. }
  pose proof (shr_fexp_bound m1 e' loc_Exact 1024 ltac:(lia) ltac:(lia)
                ltac:(lia) Hlt1) as [He'' _].
  destruct (shr_fexp prec emax m1 e' loc_Exact) as [mrs'' e''].
  cbn [fst snd] in *.
  destruct (shr_m mrs'') as [|p|p]; [discriminate| |discriminate].
  replace (e'' <=? emax - prec) with true; [discriminate|].
  symmetry. apply Z.leb_le. unfold emax, prec. lia.
Qed.

Lemma SFdiv_core_bound (m1 m2 : positive) :
  Zpos m1 < 2 ^ 1023 ->
  0 <= fst (fst (SFdiv_core_binary prec emax (Zpos m1) 0 (Zpos m2) 0))
  < 2 ^ (1023 - snd (fst (SFdiv_core_binary prec emax (Zpos m1) 0 (Zpos m2) 0)))
  /\ snd (fst (SFdiv_core_binary prec emax (Zpos m1) 0 (Zpos m2) 0)) <= 0.
Proof.
  intros Hlt. unfold SFdiv_core_binary.
  set (e' := Z.min _ (0 - 0)).
  assert (He' : e' <= 0) by (unfold e'; lia).
  set (sh := 0 - 0 - e').
  set (m' := match sh with Z0 => Zpos m1 | Zpos _ => Z.shiftl (Zpos m1) sh
                         | Zneg _ => 0 end).
  assert (Hm' : 0 <= m' < 2 ^ (1023 - e')).
  { unfold m'. destruct sh as [|p|p] eqn:Es.
    - replace e' with 0 by lia. cbn [Z.sub Z.opp Z.add]. lia.
    - rewrite Z.shiftl_mul_pow2 by lia.
      replace (1023 - e') with (1023 + Z.pos p) by lia.
      rewrite Z.pow_add_r by lia.
      assert (0 < 2 ^ Z.pos p) by (apply Z.pow_pos_nonneg; lia).
      nia.
    - lia. }
  pose proof (Z_div_mod m' (Zpos m2) ltac:(lia)) as Hdiv.
  destruct (Z.div_eucl m' (Zpos m2)) as [q r]. cbn [fst snd].
  destruct Hdiv as [Heq Hr]. split; [|exact He']. nia.
Qed.

(** The quotient of an integer below [2 ^ 1023] in absolute value by a
    non-zero integer is within the range of a double. *)
Lemma py_quotient_in_range (a b : Z) :
  Z.abs a < 2 ^ 1023 -> b <> 0 ->
  forall s, py_quotient a b <> S754_infinity s.
Proof.
  intros Ha Hb s. unfold py_quotient, exact.
  destruct b as [|pb|pb]; [contradiction| |];
    destruct a as [|pa|pa]; cbn [SFdiv]; try discriminate;
    match goal with
    | |- context [SFdiv_core_binary prec emax (Zpos ?m1) 0 (Zpos ?m2) 0] =>
        pose proof (SFdiv_core_bound m1 m2 Ha) as [Hq He];
        destruct (SFdiv_core_binary prec emax (Zpos m1) 0 (Zpos m2) 0)
          as [[mz ez] lz]; cbn [fst snd] in Hq, He;
        apply binary_round_aux_in_range; lia
    end.
Qed.

Lemma truediv_in_range (a b : Z) :
  Z.abs a < 2 ^ 1023 -> b <> 0 -> exists q, truediv a b = Ok q.
Proof.
  intros Ha Hb. unfold truediv.
  destruct (Z.eqb_spec b 0) as [E|_]; [contradiction|].
  pose proof (py_quotient_in_range a b Ha Hb) as Hinf.
  pose proof (py_quotient_not_nan a b Hb) as Hnan.
  destruct (py_quotient a b) as [s|s| |s mm e].
  - now eexists.
  - now destruct (Hinf s).
  - now destruct Hnan.
  - now eexists.
Qed.

Lemma truediv_ok (a b : Z) (q : float) :
  truediv a b = Ok q -> q = py_quotient a b.
Proof.
  unfold truediv. destruct (b =? 0); [discriminate|].
  destruct (py_quotient a b); intros E; try discriminate; now injection E.
Qed.

Lemma ratio_defined_ok (h : heap) (a : ref) :
  ratio_defined h a ->
  truediv (value (h a)) (weight (h a)) = Ok (ratio_of h a).
Proof.
  intros [q E]. rewrite E. f_equal. now apply truediv_ok.
Qed.

Lemma ratio_defined_same_contents (h h' : heap) (a : ref) :
  same_contents h h' -> ratio_defined h a -> ratio_defined h' a.
Proof.
  intros Hs. unfold ratio_defined. now destruct (Hs a) as [-> ->].
Qed.

(** When every division returns, every dict of [l] ends up with its
    rounded quotient under ['ratio']. *)
Lemma update_ratios_ok (l : list ref) :
  forall h,
    Forall (ratio_defined h) l ->
    exists h',
      update_ratios l h = (Ok tt, h') /\
      forall a, In a l -> ratio (h' a) = Some (ratio_of h a).
Proof.
  induction l as [|a l IH]; intros h Hdef; cbn [update_ratios].
  - exists h. split; [reflexivity|]. intros a [].
  - inversion Hdef as [|? ? Ha Hl]; subst.
    rewrite (ratio_defined_ok h a Ha).
    set (h1 := update_ratio h a (ratio_of h a)).
    assert (Hs1 : same_contents h h1) by apply update_ratio_same_contents.
    destruct (IH h1) as (h' & E' & Hr).
    { eapply Forall_impl; [|exact Hl]. intros b.
      now apply ratio_defined_same_contents. }
    exists h'. split; [exact E'|]. intros b Hb.
    destruct (in_dec Nat.eq_dec b l) as [Hin|Hout].
    + rewrite (Hr b Hin). f_equal. now apply ratio_of_same_contents.
    + destruct Hb as [->|Hb]; [|contradiction].
      pose proof (update_ratios_frame l h1) as [_ Hframe].
      rewrite E' in Hframe. cbn [snd] in Hframe. rewrite (Hframe b Hout).
      unfold h1, update_ratio. now rewrite Nat.eqb_refl.
Qed.

(** ** Sorting by ratio permutes the retained orders *)

Lemma map_result_ok {A B : Type} (f : A -> result B) (g : A -> B) (l : list A) :
  (forall x, In x l -> f x = Ok (g x)) -> map_result f l = Ok (map g l).
Proof.
  induction l as [|x l IH]; intros Hf; cbn; [reflexivity|].
  rewrite (Hf x) by now left. cbn.
  rewrite IH by (intros y Hy; apply Hf; now right). reflexivity.
Qed.

Lemma insert_desc_perm (x : float * ref) (l : list (float * ref)) :
  Permutation (insert_desc x l) (x :: l).
Proof.
  induction l as [|y l IH]; cbn; [reflexivity|].
  destruct (SFltb (fst x) (fst y)); [|reflexivity].
  rewrite IH. apply perm_swap.
Qed.

Lemma sorted_desc_perm (l : list (float * ref)) : Permutation (sorted_desc l) l.
Proof.
  induction l as [|x l IH]; cbn; [reflexivity|].
  rewrite insert_desc_perm. now constructor.
Qed.

Lemma map_snd_combine {A B : Type} (f : B -> A) (l : list B) :
  map snd (combine (map f l) l) = l.
Proof. induction l as [|x l IH]; cbn; [reflexivity|]. now rewrite IH. Qed.

Lemma sorted_by_ratio_perm (h : heap) (l : list ref) (q : ref -> float) :
  (forall a, In a l -> ratio (h a) = Some (q a)) ->
  exists s, sorted_by_ratio h l = Ok s /\ Permutation s l.
Proof.
  intros Hr. unfold sorted_by_ratio.
  rewrite (map_result_ok _ q).
  - cbn. eexists; split; [reflexivity|].
    rewrite sorted_desc_perm. now rewrite map_snd_combine.
  - intros a Ha. unfold ratio_key. now rewrite (Hr a Ha).
Qed.

(** ** The greedy solver returns the value of a feasible selection *)

Lemma filter_split_perm {A : Type} (f : A -> bool) (l : list A) :
  Permutation (filter f l ++ filter (fun x => negb (f x)) l) l.
Proof.
  induction l as [|x l IH]; cbn; [reflexivity|].
  destruct (f x); cbn.
  - now constructor.
  - rewrite <- Permutation_middle. now constructor.
Qed.

Section GreedyFill.
Variable h : heap.
Variable W : Z.

Abbreviation payload_of l := (mkCounter (total_value (map h l)) (total_weight (map h l))).

Lemma reduce_payload (l : list ref) :
  l <> [] -> nonneg_values h l -> nonneg_weights h l ->
  reduce add (map (fun b => Counter (h b)) l) = Ok (payload_of l).
Proof.
  intros Hne Hv Hw. rewrite <- (map_map h Counter).
  apply reduce_add_sums.
  - destruct l; cbn; congruence.
  - now apply Forall_map.
  - now apply Forall_map.
Qed.

(** The loop keeps [payload] equal to the sums over [final_order], never
    lets the weight pass [W], and only moves orders from [rest] to
    [final_order]. *)
Lemma greedy_fill_selects (rest : list ref) :
  forall final_order,
    final_order <> [] ->
    nonneg_values h (final_order ++ rest) ->
    nonneg_weights h (final_order ++ rest) ->
    total_weight (map h final_order) <= W ->
    exists sel skipped,
      greedy_fill h W rest final_order (payload_of final_order)
      = Ok (payload_of sel) /\
      Permutation (sel ++ skipped) (final_order ++ rest) /\
      total_weight (map h sel) <= W.
Proof.
  induction rest as [|a rest IH]; intros fo Hne Hv Hw Hfit.
  - exists fo, []. cbn. repeat split; auto.
  - cbn [greedy_fill c_weight].
    destruct (total_weight (map h fo) =? W).
    { exists fo, (a :: rest). repeat split; auto. }
    destruct (total_weight (map h fo) + weight (h a) >? W) eqn:Hover.
    + destruct (IH fo Hne) as (sel & skipped & E & Hperm & Hsel); auto.
      * unfold nonneg_values in *. rewrite Forall_app in *.
        destruct Hv as [? Hv]. inversion Hv. now split.
      * unfold nonneg_weights in *. rewrite Forall_app in *.
        destruct Hw as [? Hw]. inversion Hw. now split.
      * exists sel, (a :: skipped). repeat split; auto.
        rewrite <- !Permutation_middle. now constructor.
    + apply gtb_false_le in Hover. cbv zeta.
      assert (Hv' : nonneg_values h ((fo ++ [a]) ++ rest))
        by now rewrite <- app_assoc.
      assert (Hw' : nonneg_weights h ((fo ++ [a]) ++ rest))
        by now rewrite <- app_assoc.
      rewrite reduce_payload.
      * cbn [bind].
        destruct (IH (fo ++ [a])) as (sel & skipped & E & Hperm & Hsel); auto.
        -- destruct fo; cbn; congruence.
        -- rewrite map_app, total_weight_app. cbn. lia.
        -- exists sel, skipped. repeat split; auto.
           now rewrite Hperm, <- app_assoc.
      * destruct fo; cbn; congruence.
      * unfold nonneg_values in *. rewrite Forall_app in Hv'. apply Hv'.
      * unfold nonneg_weights in *. rewrite Forall_app in Hw'. apply Hw'.
Qed.

Lemma greedy_result_selects (filtered : list ref) (q : ref -> float) :
  filtered <> [] ->
  nonneg_values h filtered -> nonneg_weights h filtered ->
  Forall (fun a => weight (h a) <= W) filtered ->
  (forall a, In a filtered -> ratio (h a) = Some (q a)) ->
  exists sel skipped,
    greedy_result h filtered W = Ok (total_value (map h sel)) /\
    Permutation (sel ++ skipped) filtered /\
    total_weight (map h sel) <= W.
Proof.
  intros Hne Hv Hw Hfit Hr. unfold greedy_result.
  destruct (sorted_by_ratio_perm h filtered q Hr) as (s & E & Hperm).
  rewrite E. cbn [bind].
  destruct s as [|first rest].
  { apply Permutation_nil in Hperm. contradiction. }
  change (getitem (first :: rest) 0) with (Ok first) at 1. cbn [bind tl].
  assert (Hv' : nonneg_values h ([first] ++ rest))
    by (unfold nonneg_values; cbn; now rewrite Hperm).
  assert (Hw' : nonneg_weights h ([first] ++ rest))
    by (unfold nonneg_weights; cbn; now rewrite Hperm).
  assert (Hfit' : Forall (fun a => weight (h a) <= W) (first :: rest))
    by now rewrite Hperm.
  rewrite reduce_payload; try discriminate.
  - cbn [bind].
    destruct (greedy_fill_selects rest [first]) as (sel & skipped & E' & Hp & Hs);
      auto; try discriminate.
    + cbn. inversion Hfit'; subst. lia.
    + rewrite E'. cbn [bind c_value].
      exists sel, skipped. repeat split; auto.
      now rewrite Hp.
  - unfold nonneg_values in *. rewrite Forall_app in Hv'. apply Hv'.
  - unfold nonneg_weights in *. rewrite Forall_app in Hw'. apply Hw'.
Qed.
End GreedyFill.

Lemma Forall_filter_in {A : Type} (P : A -> Prop) (f : A -> bool) (l : list A) :
  Forall P l -> Forall P (filter f l).
Proof.
  intros Hl. apply Forall_forall. intros x Hx. apply filter_In in Hx.
  rewrite Forall_forall in Hl. now apply Hl.
Qed.

Lemma filter_fits_le (h : heap) (W : Z) (l : list ref) :
  Forall (fun a => weight (h a) <= W) (filter (fits h W) l).
Proof.
  apply Forall_forall. intros a Ha. apply filter_In in Ha as [_ Ha].
  unfold fits in Ha. apply negb_true_iff, gtb_false_le in Ha. exact Ha.
Qed.

Lemma Forall_same_contents (P : Z -> Z -> Prop) (h h' : heap) (l : list ref) :
  same_contents h h' ->
  Forall (fun a => P (value (h a)) (weight (h a))) l ->
  Forall (fun a => P (value (h' a)) (weight (h' a))) l.
Proof.
  intros Hs. apply Forall_impl. intros a Ha. now destruct (Hs a) as [-> ->].
Qed.

(** With positive weights and every ratio within the double range the
    greedy solver returns, and what it returns is the total value of some
    orders of the input whose total weight fits. *)
Theorem greedy_selects (h : heap) (orders : list ref) (W : Z) :
  nonneg_values h orders -> positive_weights h orders -> 0 <= W ->
  Forall (ratio_defined h) (filter (fits h W) orders) ->
  exists sel skipped,
    fst (maximum_value_greedy_approx orders W h) = Ok (total_value (map h sel)) /\
    Permutation (sel ++ skipped) orders /\
    total_weight (map h sel) <= W.
Proof.
  intros Hv Hw HW Hdef. unfold maximum_value_greedy_approx. cbv zeta.
  set (filtered := filter (fits h W) orders) in *.
  destruct (length filtered =? 0)%nat eqn:Hlen.
  { exists [], orders. cbn. auto. }
  apply Nat.eqb_neq in Hlen.
  assert (Hne : filtered <> []) by (intros E; rewrite E in Hlen; cbn in Hlen; lia).
  assert (Hvf : nonneg_values h filtered) by now apply Forall_filter_in.
  assert (Hwf : positive_weights h filtered) by now apply Forall_filter_in.
  destruct (update_ratios_ok filtered h Hdef) as (h' & E & Hr).
  rewrite E.
  pose proof (update_ratios_frame filtered h) as [Hs _].
  rewrite E in Hs. cbn [snd] in Hs.
  destruct (greedy_result_selects h' W filtered (ratio_of h) Hne)
    as (sel & skipped & E' & Hperm & Hfit); auto.
  - apply (Forall_same_contents (fun x _ => 0 <= x) h h'); assumption.
  - apply (Forall_same_contents (fun _ y => 0 <= y) h h'); [assumption|].
    eapply Forall_impl; [|exact Hwf]. cbn. intros; lia.
  - apply (Forall_same_contents (fun _ y => y <= W) h h'); [assumption|].
    apply filter_fits_le.
  - exists sel, (skipped ++ filter (fun a => negb (fits h W a)) orders).
    cbn [fst]. rewrite E'. repeat split.
    + f_equal. now apply total_value_same_contents.
    + rewrite app_assoc, Hperm. apply filter_split_perm.
    + now rewrite <- (total_weight_same_contents h h').
Qed.

(** ** No feasible selection beats the recurrence *)

Lemma total_weight_positive (c : list order) :
  Forall (fun o => 0 < weight o) c -> c <> [] -> 0 < total_weight c.
Proof.
  intros Hc Hne. destruct Hc as [|o c Ho Hc]; [congruence|]. cbn.
  assert (0 <= total_weight c); [|lia].
  apply total_weight_nonneg. eapply Forall_impl; [|exact Hc]. cbn; intros; lia.
Qed.

Lemma Forall_perm_app_l {A : Type} (P : A -> Prop) (c c' l : list A) :
  Permutation (c ++ c') l -> Forall P l -> Forall P c.
Proof.
  intros Hp Hl. apply Permutation_sym in Hp.
  apply (Permutation_Forall Hp) in Hl. now apply Forall_app in Hl.
Qed.

Lemma total_value_remove (c1 c2 : list order) (o : order) :
  total_value (c1 ++ o :: c2) = value o + total_value (c1 ++ c2).
Proof. rewrite !total_value_app. cbn. lia. Qed.

Lemma total_weight_remove (c1 c2 : list order) (o : order) :
  total_weight (c1 ++ o :: c2) = weight o + total_weight (c1 ++ c2).
Proof. rewrite !total_weight_app. cbn. lia. Qed.

(** Orders picked from [l] (each at most as often as it occurs) whose
    weights sum to at most [j] are worth at most [knap l j]. *)
Theorem knap_upper (l : list order) :
  Forall (fun o => 0 <= value o) l -> Forall (fun o => 0 < weight o) l ->
  forall c c' j,
    Permutation (c ++ c') l -> total_weight c <= j ->
    total_value c <= knap l j.
Proof.
  induction l as [|o l IH]; intros Hv Hw c c' j Hperm Hfit.
  - apply Permutation_sym, Permutation_nil, app_eq_nil in Hperm as [-> _].
    reflexivity.
  - assert (Hcw : Forall (fun o => 0 < weight o) c)
      by (eapply Forall_perm_app_l; eassumption).
    inversion Hv as [|? ? Hvo Hvl]; inversion Hw as [|? ? Hwo Hwl]; subst.
    destruct (Z_le_gt_dec j 0) as [Hj|Hj].
    + rewrite knap_nonpos by assumption.
      destruct c as [|x c]; [reflexivity|].
      pose proof (total_weight_positive (x :: c) Hcw ltac:(discriminate)). lia.
    + rewrite knap_cons_pos by lia.
      assert (Hin : In o (c ++ c'))
        by (eapply Permutation_in; [apply Permutation_sym, Hperm|now left]).
      apply in_app_or in Hin as [Hin|Hin];
        apply in_split in Hin as (c1 & c2 & ->).
      * assert (Hp : Permutation ((c1 ++ c2) ++ c') l).
        { apply Permutation_sym. rewrite <- app_assoc.
          apply Permutation_cons_app_inv with (a := o).
          apply Permutation_sym. rewrite <- app_assoc in Hperm. exact Hperm. }
        rewrite total_weight_remove in Hfit. rewrite total_value_remove.
        assert (0 <= total_weight (c1 ++ c2)).
        { apply total_weight_nonneg.
          eapply Forall_impl; [|eapply Forall_perm_app_l; [exact Hp|exact Hwl]].
          cbn; intros; lia. }
        replace (weight o >? j) with false
          by (symmetry; rewrite Z.gtb_ltb; apply Z.ltb_ge; lia).
        pose proof (IH Hvl Hwl (c1 ++ c2) c' (j - weight o) Hp ltac:(lia)). lia.
      * assert (Hp : Permutation (c ++ c1 ++ c2) l).
        { apply Permutation_sym. rewrite app_assoc.
          apply Permutation_cons_app_inv with (a := o).
          rewrite <- app_assoc. now apply Permutation_sym. }
        pose proof (IH Hvl Hwl c (c1 ++ c2) j Hp Hfit).
        destruct (weight o >? j); lia.
Qed.

Lemma positive_nonneg_weights (h : heap) (orders : list ref) :
  positive_weights h orders -> nonneg_weights h orders.
Proof. apply Forall_impl. intros; lia. Qed.





(** ** Sub-sequences and combinations *)

Lemma subseq_nil_l {A : Type} (l : list A) : subseq [] l.
Proof. induction l; now constructor. Qed.

Lemma subseq_refl {A : Type} (l : list A) : subseq l l.
Proof. induction l; now constructor. Qed.

Lemma subseq_length {A : Type} (c l : list A) :
  subseq c l -> (length c <= length l)%nat.
Proof. induction 1; cbn; lia. Qed.

Lemma subseq_perm {A : Type} (c l : list A) :
  subseq c l -> exists c', Permutation (c ++ c') l.
Proof.
  induction 1 as [|x c l _ [c' IH]|x c l _ [c' IH]].
  - exists []. reflexivity.
  - exists (x :: c'). rewrite <- Permutation_middle. now constructor.
  - exists c'. cbn. now constructor.
Qed.

Lemma subseq_filter {A : Type} (f : A -> bool) (l : list A) :
  subseq (filter f l) l.
Proof.
  induction l as [|x l IH]; cbn; [constructor|].
  destruct (f x); now constructor.
Qed.

Lemma subseq_trans {A : Type} (a b c : list A) :
  subseq a b -> subseq b c -> subseq a c.
Proof.
  intros Hab Hbc. revert a Hab.
  induction Hbc as [|x b c _ IH|x b c _ IH]; intros a Hab.
  - assumption.
  - constructor. now apply IH.
  - inversion Hab; subst.
    + constructor. now apply IH.
    + apply subseq_take. now apply IH.
Qed.

Lemma subseq_into_filter {A : Type} (f : A -> bool) (c l : list A) :
  subseq c l -> Forall (fun x => f x = true) c -> subseq c (filter f l).
Proof.
  induction 1 as [|x c l _ IH|x c l _ IH]; intros Hc; cbn.
  - constructor.
  - destruct (f x); [constructor|]; now apply IH.
  - inversion Hc; subst. replace (f x) with true by congruence.
    apply subseq_take. now apply IH.
Qed.

Lemma subseq_app {A : Type} (c1 l1 c2 l2 : list A) :
  subseq c1 l1 -> subseq c2 l2 -> subseq (c1 ++ c2) (l1 ++ l2).
Proof.
  intros H1 H2. induction H1; cbn; [assumption| |]; now constructor.
Qed.

Lemma subseq_rev {A : Type} (c l : list A) :
  subseq c l -> subseq (rev c) (rev l).
Proof.
  induction 1 as [|x c l _ IH|x c l _ IH]; cbn.
  - constructor.
  - rewrite <- (app_nil_r (rev c)). apply subseq_app; [assumption|].
    apply subseq_nil_l.
  - apply subseq_app; [assumption|apply subseq_refl].
Qed.

Lemma subseq_map_inv {A B : Type} (f : A -> B) (l : list A) :
  forall c, subseq c (map f l) -> exists c0, subseq c0 l /\ map f c0 = c.
Proof.
  induction l as [|x l IH]; intros c Hc; cbn in Hc.
  - inversion Hc; subst. exists []. split; [constructor|reflexivity].
  - inversion Hc as [|y c1 l1 Hc1|y c1 l1 Hc1]; subst.
    + destruct (IH c Hc1) as (c0 & H0 & E).
      exists c0. split; [now constructor|assumption].
    + destruct (IH c1 Hc1) as (c0 & H0 & E).
      exists (x :: c0). split; [now constructor|]. cbn. now rewrite E.
Qed.

Lemma combinations_subseq {A : Type} (l : list A) :
  forall k c, In c (combinations l k) -> subseq c l /\ length c = k.
Proof.
  induction l as [|x l IH]; intros [|k] c Hc; cbn in Hc.
  - destruct Hc as [<-|[]]. split; [constructor|reflexivity].
  - contradiction.
  - destruct Hc as [<-|[]]. split; [apply subseq_nil_l|reflexivity].
  - apply in_app_or in Hc as [Hc|Hc].
    + apply in_map_iff in Hc as (c0 & <- & Hc0).
      destruct (IH k c0 Hc0) as [Hs Hl].
      split; [now constructor|cbn; now rewrite Hl].
    + destruct (IH (S k) c Hc) as [Hs Hl]. split; [now constructor|assumption].
Qed.

Lemma combinations_zero {A : Type} (l : list A) : combinations l 0 = [[]].
Proof. destruct l; reflexivity. Qed.

Lemma subseq_combinations {A : Type} (c l : list A) :
  subseq c l -> In c (combinations l (length c)).
Proof.
  induction 1 as [|x c l Hs IH|x c l Hs IH].
  - now left.
  - destruct c as [|y c].
    + rewrite combinations_zero. now left.
    + cbn [length combinations]. apply in_or_app. now right.
  - cbn [length combinations]. apply in_or_app. left. now apply in_map.
Qed.

Lemma total_value_rev (l : list order) : total_value (rev l) = total_value l.
Proof.
  induction l as [|o l IH]; cbn; [reflexivity|].
  rewrite total_value_app. cbn. lia.
Qed.

Lemma total_weight_rev (l : list order) : total_weight (rev l) = total_weight l.
Proof.
  induction l as [|o l IH]; cbn; [reflexivity|].
  rewrite total_weight_app. cbn. lia.
Qed.

(** ** The recurrence is reached by a feasible selection *)

Theorem knap_achieved (l : list order) :
  forall j, 0 <= j ->
    exists c, subseq c l /\ total_weight c <= j /\ total_value c = knap l j.
Proof.
  induction l as [|o l IH]; intros j Hj.
  - exists []. repeat split; [constructor|assumption].
  - destruct (Z.eq_dec j 0) as [->|Hne].
    + exists []. repeat split; [apply subseq_nil_l|reflexivity].
    + rewrite knap_cons_pos by lia.
      destruct (weight o >? j) eqn:Hw.
      * destruct (IH j Hj) as (c & Hs & Hc & Hv).
        exists c. repeat split; [now constructor|assumption|assumption].
      * apply gtb_false_le in Hw.
        destruct (Z.max_spec (knap l j) (knap l (j - weight o) + value o))
          as [[_ ->]|[_ ->]].
        -- destruct (IH (j - weight o) ltac:(lia)) as (c & Hs & Hc & Hv).
           exists (o :: c). repeat split; [now constructor|cbn; lia|cbn; lia].
        -- destruct (IH j Hj) as (c & Hs & Hc & Hv).
           exists c. repeat split; [now constructor|assumption|assumption].
Qed.

(** ** The exhaustive search *)

Lemma for_each_app {A B : Type} (body : A -> B -> result A) (l1 l2 : list B) :
  forall a,
    for_each body (l1 ++ l2) a = (a' <- for_each body l1 a ;; for_each body l2 a').
Proof.
  induction l1 as [|x l1 IH]; intros a; cbn; [reflexivity|].
  destruct (body a x); cbn; [apply IH|reflexivity].
Qed.

(** The two nested loops visit the combinations of every length in turn. *)
Lemma for_each_nested {A B C : Type} (body : A -> B -> result A)
    (g : C -> list B) (ks : list C) :
  forall a,
    for_each (fun acc k => for_each body (g k) acc) ks a
    = for_each body (flat_map g ks) a.
Proof.
  induction ks as [|k ks IH]; intros a; cbn; [reflexivity|].
  rewrite for_each_app. destruct (for_each body (g k) a); cbn; [apply IH|reflexivity].
Qed.

Lemma in_range_down (n k : nat) : In k (range_down n) <-> (1 <= k <= n)%nat.
Proof.
  unfold range_down. rewrite <- in_rev, in_seq. lia.
Qed.

Section NaiveLoop.
Variable h : heap.
Variable W : Z.

Abbreviation usable := (usable h).

Lemma naive_body_usable (acc : Z) (c : list ref) :
  usable c ->
  naive_body h W acc c =
  Ok (if (total_weight (map h c) <=? W) && (total_value (map h c) >? acc)
      then total_value (map h c) else acc).
Proof.
  intros (Hne & Hv & Hw). unfold naive_body.
  rewrite <- (map_map h Counter).
  rewrite reduce_add_sums.
  - cbn. now destruct (_ && _).
  - destruct c; cbn; congruence.
  - now apply Forall_map.
  - now apply Forall_map.
Qed.

(** The loop returns the largest value among the candidates that fit, or
    the starting value when that is larger. *)
Lemma naive_loop (cands : list (list ref)) :
  Forall usable cands ->
  forall acc,
    exists r,
      for_each (naive_body h W) cands acc = Ok r /\
      acc <= r /\
      (forall c, In c cands -> total_weight (map h c) <= W ->
                 total_value (map h c) <= r) /\
      (r = acc \/
       exists c, In c cands /\ total_weight (map h c) <= W /\
                 r = total_value (map h c)).
Proof.
  induction 1 as [|c cands Hc _ IH]; intros acc.
  - exists acc. cbn. split; [reflexivity|]. split; [lia|].
    split; [intros c []|now left].
  - cbn [for_each]. rewrite naive_body_usable by assumption. cbn [bind].
    set (acc' := if (total_weight (map h c) <=? W) && (total_value (map h c) >? acc)
                 then total_value (map h c) else acc).
    assert (Hacc : acc <= acc' /\
                   (total_weight (map h c) <= W -> total_value (map h c) <= acc') /\
                   (acc' = acc \/
                    total_weight (map h c) <= W /\ acc' = total_value (map h c))).
    { unfold acc'.
      destruct (Z.leb_spec (total_weight (map h c)) W);
        destruct (total_value (map h c) >? acc) eqn:Hgt; cbn;
        try apply gtb_true_lt in Hgt; try apply gtb_false_le in Hgt;
        repeat split; auto; try lia. }
    destruct Hacc as (Hle & Hfit & Horigin).
    destruct (IH acc') as (r & E & Hr & Hall & Hsome).
    exists r. repeat split.
    + exact E.
    + lia.
    + intros c0 [<-|Hin] Hc0; [specialize (Hfit Hc0); lia|now apply Hall].
    + destruct Hsome as [->|(c0 & Hin & Hc0 & ->)].
      * destruct Horigin as [->|[Hc0 ->]]; [now left|].
        right. exists c. repeat split; auto. now left.
      * right. exists c0. repeat split; auto. now right.
Qed.
End NaiveLoop.

Lemma weight_le_total (h : heap) (c : list ref) (a : ref) :
  nonneg_weights h c -> In a c -> weight (h a) <= total_weight (map h c).
Proof.
  induction 1 as [|b c Hb Hc IH]; intros Hin; [contradiction|]. cbn.
  pose proof (total_weight_nonneg (map h c) ltac:(now apply Forall_map)).
  destruct Hin as [->|Hin]; [lia|]. specialize (IH Hin). lia.
Qed.

Lemma Forall_subseq {A : Type} (P : A -> Prop) (c l : list A) :
  subseq c l -> Forall P l -> Forall P c.
Proof.
  induction 1; intros Hl; [constructor| |]; inversion Hl; subst; auto.
Qed.

(** With non-negative values and positive weights the exhaustive search
    returns the value of the recurrence. *)
Theorem naive_result_knap (h : heap) (orders : list ref) (W : Z) :
  nonneg_values h orders -> positive_weights h orders -> 0 <= W ->
  naive_result h orders W = Ok (knap (rev (map h orders)) W).
Proof.
  intros Hv Hw HW. unfold naive_result. cbv zeta.
  set (filtered := filter (fits h W) orders).
  rewrite for_each_nested.
  set (cands := flat_map (combinations filtered) (range_down (length filtered))).
  pose proof (positive_nonneg_weights _ _ Hw) as Hw0.
  assert (Hsub : subseq filtered orders) by apply subseq_filter.
  assert (Hcands : forall c, In c cands <-> subseq c filtered /\ c <> []).
  { intros c. unfold cands. rewrite in_flat_map. split.
    - intros (k & Hk & Hc). apply in_range_down in Hk.
      apply combinations_subseq in Hc as [Hs Hl]. split; [assumption|].
      intros ->. cbn in Hl. lia.
    - intros [Hs Hne]. exists (length c). split.
      + apply in_range_down. pose proof (subseq_length _ _ Hs).
        destruct c; [congruence|cbn in *; lia].
      + now apply subseq_combinations. }
  destruct (naive_loop h W cands) with (acc := 0)
    as (r & E & Hr & Hall & Hsome).
  { apply Forall_forall. intros c Hc. apply Hcands in Hc as [Hs Hne].
    pose proof (subseq_trans _ _ _ Hs Hsub) as Hso.
    repeat split; [assumption| |]; eapply Forall_subseq; eassumption. }
  rewrite E. f_equal. apply Z.le_antisymm.
  - destruct Hsome as [->|(c & Hin & Hfit & ->)].
    + apply knap_nonneg. now apply (Forall_rev_map (fun o => 0 <= value o)).
    + apply Hcands in Hin as [Hs _].
      destruct (subseq_perm _ _ (subseq_trans _ _ _ Hs Hsub)) as [c' Hperm].
      apply knap_upper with (c' := map h c'); auto.
      * now apply (Forall_rev_map (fun o => 0 <= value o)).
      * now apply (Forall_rev_map (fun o => 0 < weight o)).
      * rewrite <- map_app, <- map_rev.
        apply Permutation_map. rewrite Hperm. apply Permutation_rev.
  - destruct (knap_achieved (rev (map h orders)) W HW) as (c & Hs & Hfit & <-).
    apply subseq_rev in Hs. rewrite rev_involutive in Hs.
    apply subseq_map_inv in Hs as (c0 & Hs0 & E0).
    assert (Hval : total_value c = total_value (map h c0))
      by (rewrite E0; symmetry; apply total_value_rev).
    assert (Hwt : total_weight (map h c0) <= W)
      by (rewrite E0, total_weight_rev; exact Hfit).
    rewrite Hval.
    destruct c0 as [|a c0]; [cbn; lia|].
    apply Hall; [|assumption]. apply Hcands. split; [|discriminate].
    apply subseq_into_filter; [assumption|].
    apply Forall_forall. intros b Hb. unfold fits.
    apply negb_true_iff. rewrite Z.gtb_ltb. apply Z.ltb_ge.
    pose proof (weight_le_total h (a :: c0) b
                  (Forall_subseq _ _ _ Hs0 Hw0) Hb). lia.
Qed.

(** X8: the memoized dynamic program and the exhaustive search agree on
    non-negative values and positive weights, for any number of orders. *)
Theorem memoized_agrees_with_naive (h : heap) (orders : list ref) (W : Z) :
  nonneg_values h orders -> positive_weights h orders -> 0 <= W ->
  exists r,
    fst (maximum_value_dynamic_solution_memoized orders W h) = Ok r /\
    fst (maximum_value_naive orders W h) = Ok r.
Proof.
  intros Hv Hw HW. exists (knap (rev (map h orders)) W). split; cbn.
  - apply memoized_result_knap; [now apply positive_nonneg_weights|assumption].
  - now apply naive_result_knap.
Qed.

(** ** Zero weights *)

(** C1, at a zero-weight order: on the orders (5, 0), (3, 1) and capacity 1
    both orders fit together and the exhaustive search returns 8, but the
    memoized dynamic program returns 5, because its base case [j <= 0]
    stores 0 for cell (1, 0) without looking at the weightless order. *)
Theorem memoized_misses_zero_weight :
  fst (maximum_value_naive [0%nat; 1%nat] 1 zero_weight_heap) = Ok 8 /\
  fst (maximum_value_dynamic_solution_memoized [0%nat; 1%nat] 1 zero_weight_heap)
  = Ok 5.
Proof. split; vm_compute; reflexivity. Qed.

(** C6, at a zero-weight order: the order (5, 0) is retained for every
    capacity [W >= 0], and the quotient [5 / 0] raises. *)
Theorem greedy_zero_weight_raises :
  fst (maximum_value_greedy_approx [0%nat; 1%nat] 1 zero_weight_heap)
  = Raise ZeroDivisionError.
Proof. vm_compute. reflexivity. Qed.

(** ** What the solvers do to the caller's orders *)

Lemma update_ratios_defined (l : list ref) :
  forall h u,
    fst (update_ratios l h) = Ok u -> Forall (ratio_defined h) l.
Proof.
  induction l as [|a l IH]; intros h u; cbn [update_ratios]; [constructor|].
  destruct (truediv (value (h a)) (weight (h a))) as [q|e] eqn:E;
    [|discriminate].
  intros Hok. constructor; [now exists q|].
  apply IH in Hok.
  eapply Forall_impl; [|exact Hok]. intros b Hb.
  unfold ratio_defined in *.
  now destruct (update_ratio_same_contents h a q b) as [<- <-].
Qed.

Lemma greedy_same_contents (orders : list ref) (W : Z) (h : heap) :
  same_contents h (snd (maximum_value_greedy_approx orders W h)).
Proof.
  unfold maximum_value_greedy_approx. cbv zeta.
  destruct (length (filter (fits h W) orders) =? 0)%nat;
    [apply same_contents_refl|].
  pose proof (update_ratios_frame (filter (fits h W) orders) h) as [Hs _].
  destruct (update_ratios (filter (fits h W) orders) h) as [[u|e] h']; exact Hs.
Qed.

(** Each program over the caller's objects returns what the function of
    the same name returns on the contents of the list, and leaves the dicts
    that function leaves. *)

Lemma bind_run_pure {A B : Type} (c : Run A) (k : A -> Run B) (r : result A)
    (s : world) :
  c s = (r, s) ->
  bind_run c k s = match r with Ok a => k a s | Raise e => (Raise e, s) end.
Proof. intros E. unfold bind_run. rewrite E. now destruct r. Qed.

Lemma filter_run_fits (W : Z) (l : list ref) (s : world) :
  filter_run (fits_run W) l s = (Ok (filter (fits (dicts s) W) l), s).
Proof.
  induction l as [|a l IH]; [reflexivity|].
  cbn [filter_run filter]. unfold bind_run. unfold fits_run at 1.
  unfold bind_run, dict_weight, ret. rewrite IH. reflexivity.
Qed.

Lemma map_run_Counter (l : list ref) (s : world) :
  map_run dict_Counter l s = (Ok (map (fun a => Counter (dicts s a)) l), s).
Proof.
  induction l as [|a l IH]; [reflexivity|].
  cbn [map_run map]. unfold bind_run. unfold dict_Counter at 1.
  cbv beta iota. now rewrite IH.
Qed.

Lemma payload_run_pure (l : list ref) (s : world) :
  payload_run l s = (reduce add (map (fun a => Counter (dicts s a)) l), s).
Proof.
  unfold payload_run, bind_run. now rewrite map_run_Counter.
Qed.

Lemma map_run_ratio (l : list ref) (s : world) :
  map_run dict_ratio l s = (map_result (ratio_key (dicts s)) l, s).
Proof.
  induction l as [|a l IH]; [reflexivity|].
  cbn [map_run map_result]. unfold bind_run at 1. unfold dict_ratio at 1.
  destruct (ratio_key (dicts s) a) as [q|e]; cbn [bind]; [|reflexivity].
  unfold bind_run at 1. rewrite IH.
  now destruct (map_result (ratio_key (dicts s)) l).
Qed.

Lemma for_each_run_pure {A B : Type} (body : A -> B -> Run A)
    (f : A -> B -> result A) (l : list B) (s : world) :
  (forall a x, body a x s = (f a x, s)) ->
  forall a, for_each_run body l a s = (for_each f l a, s).
Proof.
  intros Hbody. induction l as [|x l IH]; intros a; [reflexivity|].
  cbn [for_each_run for_each]. unfold bind_run. rewrite Hbody.
  destruct (f a x) as [a'|e]; cbn [bind]; [apply IH|reflexivity].
Qed.

Lemma naive_body_run_pure (W acc : Z) (c : list ref) (s : world) :
  naive_body_run W acc c s = (naive_body (dicts s) W acc c, s).
Proof.
  unfold naive_body_run, naive_body, bind_run. rewrite payload_run_pure.
  destruct (reduce add (map (fun a => Counter (dicts s a)) c)) as [p|e];
    cbn [bind]; [|reflexivity].
  unfold ret. now destruct (_ && _).
Qed.

Lemma maximum_value_naive_run_pure (W : Z) (s : world) :
  maximum_value_naive_run W s
  = (naive_result (dicts s) (caller_orders s) W, s).
Proof.
  unfold maximum_value_naive_run, naive_result. cbv zeta.
  unfold bind_run at 1. cbn [iter_orders].
  unfold bind_run at 1. rewrite filter_run_fits.
  apply for_each_run_pure. intros acc k.
  apply for_each_run_pure. intros acc' c. apply naive_body_run_pure.
Qed.

Lemma m_run_pure (s : world) :
  forall i j tbl,
    m_run i j tbl s = (m (dicts s) (caller_orders s) i j tbl, s).
Proof.
  assert (Hw : forall i, w_run i s = (w (dicts s) (caller_orders s) i, s)).
  { intros i. unfold w_run, w, bind_run, orders_getitem.
    now destruct (getitem (caller_orders s) (Z.of_nat i)). }
  assert (Hv : forall i, v_run i s = (v (dicts s) (caller_orders s) i, s)).
  { intros i. unfold v_run, v, bind_run, orders_getitem.
    now destruct (getitem (caller_orders s) (Z.of_nat i)). }
  induction i as [|i IH]; intros j tbl; cbn [m_run m]; [reflexivity|].
  destruct (j <=? 0); [reflexivity|].
  unfold bind_run at 1. unfold lift at 1.
  destruct (table_get tbl (Z.of_nat i) j) as [c|e]; cbn [bind]; [|reflexivity].
  rewrite (bind_run_pure _ _ (if c =? -1 then m (dicts s) (caller_orders s) i j tbl
                             else Ok tbl))
    by (destruct (c =? -1); [apply IH|reflexivity]).
  destruct (if c =? -1 then m (dicts s) (caller_orders s) i j tbl else Ok tbl)
    as [tbl1|e]; cbn [bind]; [|reflexivity].
  rewrite (bind_run_pure _ _ _ _ (Hw i)).
  destruct (w (dicts s) (caller_orders s) i) as [wi|e]; cbn [bind];
    [|reflexivity].
  destruct (wi >? j).
  { unfold bind_run, lift.
    now destruct (table_get tbl1 (Z.of_nat i) j). }
  unfold bind_run at 1. unfold lift at 1.
  destruct (table_get tbl1 (Z.of_nat i) (j - wi)) as [c'|e]; cbn [bind];
    [|reflexivity].
  rewrite (bind_run_pure _ _ (if c' =? -1
                             then m (dicts s) (caller_orders s) i (j - wi) tbl1
                             else Ok tbl1))
    by (destruct (c' =? -1); [apply IH|reflexivity]).
  destruct (if c' =? -1 then m (dicts s) (caller_orders s) i (j - wi) tbl1
            else Ok tbl1) as [tbl2|e]; cbn [bind]; [|reflexivity].
  unfold bind_run at 1. unfold lift at 1.
  destruct (table_get tbl2 (Z.of_nat i) j) as [x|e]; cbn [bind]; [|reflexivity].
  unfold bind_run at 1. unfold lift at 1.
  destruct (table_get tbl2 (Z.of_nat i) (j - wi)) as [y|e]; cbn [bind];
    [|reflexivity].
  rewrite (bind_run_pure _ _ _ _ (Hv i)).
  now destruct (v (dicts s) (caller_orders s) i).
Qed.

Lemma memoized_run_pure (W : Z) (s : world) :
  maximum_value_dynamic_solution_memoized_run W s
  = (memoized_result (dicts s) (caller_orders s) W, s).
Proof.
  unfold maximum_value_dynamic_solution_memoized_run, memoized_result.
  cbv zeta. unfold bind_run at 1. cbn [len_orders].
  unfold bind_run. rewrite m_run_pure.
  now destruct (m (dicts s) (caller_orders s) _ W _).
Qed.

Lemma update_ratios_run (l : list ref) :
  forall s,
    for_each_run (fun _ a => update_ratio_run a) l tt s
    = (fst (update_ratios l (dicts s)),
       mkWorld (caller_orders s) (snd (update_ratios l (dicts s)))).
Proof.
  induction l as [|a l IH]; intros s.
  - now destruct s.
  - cbn [for_each_run update_ratios]. unfold bind_run at 1.
    unfold update_ratio_run. unfold bind_run at 1. cbn [dict_value].
    unfold bind_run at 1. cbn [dict_weight].
    unfold bind_run at 1. unfold lift at 1.
    destruct (truediv (value (dicts s a)) (weight (dicts s a))) as [q|e].
    + cbn [dict_update_ratio]. rewrite IH. reflexivity.
    + now destruct s.
Qed.

Lemma greedy_fill_run_pure (W : Z) (rest : list ref) (s : world) :
  forall final_order payload,
    greedy_fill_run W rest final_order payload s
    = (greedy_fill (dicts s) W rest final_order payload, s).
Proof.
  induction rest as [|a rest IH]; intros fo payload; [reflexivity|].
  cbn [greedy_fill_run greedy_fill].
  destruct (c_weight payload =? W); [reflexivity|].
  unfold bind_run at 1. cbn [dict_weight].
  destruct (c_weight payload + weight (dicts s a) >? W); [apply IH|].
  cbv zeta. unfold bind_run. rewrite payload_run_pure.
  destruct (reduce add _) as [p|e]; cbn [bind]; [apply IH|reflexivity].
Qed.

Lemma greedy_result_run (W : Z) (filtered : list ref) (s : world) :
  (keys <~ map_run dict_ratio filtered ;;
   let sorted_filtered_orders :=
     map snd (sorted_desc (combine keys filtered)) in
   first <~ lift (getitem sorted_filtered_orders 0) ;;
   let final_order := [first] in
   payload <~ payload_run final_order ;;
   payload' <~ greedy_fill_run W (tl sorted_filtered_orders)
                               final_order payload ;;
   ret (c_value payload')) s
  = (greedy_result (dicts s) filtered W, s).
Proof.
  unfold greedy_result, sorted_by_ratio.
  unfold bind_run at 1. rewrite map_run_ratio.
  destruct (map_result (ratio_key (dicts s)) filtered) as [keys|e]; cbn [bind];
    [|reflexivity].
  cbv zeta. unfold bind_run at 1. unfold lift at 1.
  destruct (getitem (map snd (sorted_desc (combine keys filtered))) 0)
    as [first|e]; cbn [bind]; [|reflexivity].
  unfold bind_run at 1. rewrite payload_run_pure.
  destruct (reduce add _) as [p|e]; cbn [bind]; [|reflexivity].
  unfold bind_run. rewrite greedy_fill_run_pure.
  now destruct (greedy_fill (dicts s) W _ [first] p).
Qed.

Lemma maximum_value_greedy_approx_run_spec (W : Z) (s : world) :
  maximum_value_greedy_approx_run W s
  = (fst (maximum_value_greedy_approx (caller_orders s) W (dicts s)),
     mkWorld (caller_orders s)
             (snd (maximum_value_greedy_approx (caller_orders s) W (dicts s)))).
Proof.
  unfold maximum_value_greedy_approx_run, maximum_value_greedy_approx.
  cbv zeta. unfold bind_run at 1. cbn [iter_orders].
  unfold bind_run at 1. rewrite filter_run_fits.
  set (filtered := filter (fits (dicts s) W) (caller_orders s)).
  destruct (length filtered =? 0)%nat; [now destruct s|].
  unfold bind_run at 1. rewrite update_ratios_run.
  destruct (update_ratios filtered (dicts s)) as [[u|e] h']; cbn [fst snd];
    [|reflexivity].
  apply greedy_result_run.
Qed.

(** C5, as the code has it: [maximum_value], the exhaustive search and the
    memoized dynamic program leave the caller's list and every dict in it
    as they were.  The greedy solver leaves the list as it was, leaves every
    value and weight as it was and does not touch an order heavier than the
    capacity, but when it returns, every order it retained carries under
    ['ratio'] the double that [value / weight] evaluates to. *)
Theorem solvers_frame (W : Z) (s : world) :
  snd (maximum_value_run W s) = s /\
  snd (maximum_value_naive_run W s) = s /\
  snd (maximum_value_dynamic_solution_memoized_run W s) = s /\
  caller_orders (snd (maximum_value_greedy_approx_run W s)) = caller_orders s /\
  same_contents (dicts s) (dicts (snd (maximum_value_greedy_approx_run W s))) /\
  (forall a, ~ In a (filter (fits (dicts s) W) (caller_orders s)) ->
             dicts (snd (maximum_value_greedy_approx_run W s)) a = dicts s a) /\
  (forall r a, fst (maximum_value_greedy_approx_run W s) = Ok r ->
               In a (filter (fits (dicts s) W) (caller_orders s)) ->
               exists q,
                 truediv (value (dicts s a)) (weight (dicts s a)) = Ok q /\
                 ratio (dicts (snd (maximum_value_greedy_approx_run W s)) a)
                 = Some q).
Proof.
  unfold maximum_value_run.
  rewrite memoized_run_pure, maximum_value_naive_run_pure,
    maximum_value_greedy_approx_run_spec.
  cbn [fst snd caller_orders dicts].
  set (h := dicts s). set (orders := caller_orders s).
  repeat split; try apply greedy_same_contents.
  - intros a Ha. unfold maximum_value_greedy_approx. cbv zeta.
    destruct (length (filter (fits h W) orders) =? 0)%nat; [reflexivity|].
    pose proof (update_ratios_frame (filter (fits h W) orders) h) as [_ Hout].
    destruct (update_ratios (filter (fits h W) orders) h) as [[u|e] h'];
      now apply Hout.
  - intros r a. unfold maximum_value_greedy_approx. cbv zeta.
    set (filtered := filter (fits h W) orders).
    destruct (length filtered =? 0)%nat eqn:Hlen.
    { apply Nat.eqb_eq, length_zero_iff_nil in Hlen. rewrite Hlen. intros _ []. }
    destruct (update_ratios filtered h) as [[u|e] h'] eqn:E; [|discriminate].
    intros _ Ha. cbn [snd].
    assert (Hdef : Forall (ratio_defined h) filtered).
    { apply (update_ratios_defined filtered h u). now rewrite E. }
    destruct (update_ratios_ok filtered h Hdef) as (h'' & E' & Hr).
    assert (Eh : h'' = h') by congruence. subst h''.
    exists (ratio_of h a). split; [|now apply Hr].
    apply ratio_defined_ok. rewrite Forall_forall in Hdef. now apply Hdef.
Qed.

(** ** The entry point has no threshold *)

Lemma padded_filter (t : nat) :
  filter (fits padded_heap 50) (padded_orders t) = strict_orders.
Proof.
  unfold padded_orders. rewrite filter_app.
  replace (filter (fits padded_heap 50) (repeat 3%nat t)) with (@nil ref).
  - reflexivity.
  - induction t as [|t IH]; [reflexivity|]. cbn [repeat filter].
    now change (fits padded_heap 50 3%nat) with false.
Qed.

Lemma padded_greedy (t : nat) :
  fst (maximum_value_greedy_approx (padded_orders t) 50 padded_heap) = Ok 160.
Proof.
  unfold maximum_value_greedy_approx. cbv zeta. rewrite padded_filter.
  vm_compute. reflexivity.
Qed.

Lemma Forall_repeat {A : Type} (P : A -> Prop) (x : A) (t : nat) :
  P x -> Forall P (repeat x t).
Proof.
  intros Hx. apply Forall_forall. intros y Hy.
  apply repeat_spec in Hy. now subst.
Qed.

Ltac concrete_forall :=
  repeat first
    [ apply Forall_nil
    | apply Forall_cons; [cbv; first [reflexivity | discriminate]|]
    | apply Forall_repeat; cbv; first [reflexivity | discriminate] ].

Lemma padded_valid (t : nat) :
  nonneg_values padded_heap (padded_orders t) /\
  positive_weights padded_heap (padded_orders t).
Proof. split; apply Forall_app; split; concrete_forall. Qed.

Lemma padded_memoized (t : nat) :
  fst (maximum_value (padded_orders t) 50 padded_heap) = Ok 220.
Proof.
  rewrite maximum_value_knap;
    [|apply positive_nonneg_weights, padded_valid|lia].
  f_equal. unfold padded_orders. rewrite map_app, rev_app_distr.
  rewrite knap_skip_heavy; [vm_compute; reflexivity|].
  apply (Forall_rev_map (fun o => 50 < weight o)). concrete_forall.
Qed.

Lemma padded_length (t : nat) : (length (padded_orders t) > t)%nat.
Proof. unfold padded_orders. rewrite length_app, repeat_length. cbn. lia. Qed.

(** C2, as the code has it: [maximum_value] returns the result of the
    memoized dynamic program on every input, whatever the number of orders,
    and there is no threshold above which it turns to the greedy solver:
    beyond every length [t] there are orders of non-negative value and
    positive weight on which its result is not the greedy one. *)
Theorem maximum_value_always_memoized :
  (forall orders W h,
      maximum_value orders W h
      = maximum_value_dynamic_solution_memoized orders W h) /\
  (forall t : nat,
      exists orders W h,
        (length orders > t)%nat /\
        nonneg_values h orders /\ positive_weights h orders /\ 0 <= W /\
        fst (maximum_value orders W h)
        <> fst (maximum_value_greedy_approx orders W h)).
Proof.
  split; [reflexivity|].
  intros t. exists (padded_orders t), 50, padded_heap.
  split; [apply padded_length|].
  split; [apply padded_valid|]. split; [apply padded_valid|]. split; [lia|].
  rewrite padded_memoized, padded_greedy. discriminate.
Qed.

(** C2, refuted as stated: no threshold [t] splits the inputs into those
    answered by the greedy solver and those answered by the dynamic
    program.  Whatever [t] is, the three orders (60, 10), (100, 20),
    (120, 30) followed by [t] orders of weight 51 are more than [t] orders,
    and with capacity 50 [maximum_value] returns 220 where the greedy
    solver returns 160.  The inputs here are restricted to non-negative
    values and positive weights, so the claim fails on valid inputs. *)
Lemma no_greedy_threshold :
  ~ exists t : nat,
      forall h orders W,
        nonneg_values h orders -> positive_weights h orders -> 0 <= W ->
        ((length orders > t)%nat ->
         fst (maximum_value orders W h)
         = fst (maximum_value_greedy_approx orders W h)) /\
        ((length orders <= t)%nat ->
         fst (maximum_value orders W h)
         = fst (maximum_value_dynamic_solution_memoized orders W h)).
Proof.
  intros [t H].
  destruct (H padded_heap (padded_orders t) 50) as [Hgreedy _];
    try apply padded_valid; [lia|].
  specialize (Hgreedy (padded_length t)).
  rewrite padded_memoized, padded_greedy in Hgreedy. discriminate.
Qed.

(** C5, refuted as stated: after the greedy solver ran on the orders
    (60, 10), (100, 20), (120, 30) with capacity 50, the first order has a
    ['ratio'] entry it did not have before. *)
Lemma greedy_adds_ratio :
  ~ forall orders W h a,
      snd (maximum_value orders W h) a = h a /\
      snd (maximum_value_naive orders W h) a = h a /\
      snd (maximum_value_dynamic_solution_memoized orders W h) a = h a /\
      snd (maximum_value_greedy_approx orders W h) a = h a.
Proof.
  intros H.
  destruct (H strict_orders 50 strict_heap 0%nat) as (_ & _ & _ & Hg).
  apply (f_equal ratio) in Hg. vm_compute in Hg. discriminate.
Qed.

(** ** The theorems at concrete inputs *)

Lemma canonical_valid :
  nonneg_values canonical_heap canonical_orders /\
  positive_weights canonical_heap canonical_orders.
Proof. split; concrete_forall. Defined.

Ltac concrete_ratios :=
  repeat first
    [ apply Forall_nil
    | apply Forall_cons;
      [ match goal with
        | |- ratio_defined ?h ?a =>
            exists (ratio_of h a); vm_compute; reflexivity
        end | ] ].

Lemma canonical_ratios :
  Forall (ratio_defined canonical_heap)
         (filter (fits canonical_heap 10) canonical_orders).
Proof. concrete_ratios. Defined.


Lemma maximum_value_monotone_capacity_witness :
  nonneg_values canonical_heap canonical_orders /\
  nonneg_weights canonical_heap canonical_orders /\
  0 <= 5 /\ 5 <= 10 /\
  exists r1 r2,
    fst (maximum_value canonical_orders 5 canonical_heap) = Ok r1 /\
    fst (maximum_value canonical_orders 10 canonical_heap) = Ok r2 /\
    r1 <= r2.
Proof.
  assert (Hv : nonneg_values canonical_heap canonical_orders)
    by concrete_forall.
  assert (Hw : nonneg_weights canonical_heap canonical_orders)
    by concrete_forall.
  split; [exact Hv|]. split; [exact Hw|]. split; [lia|]. split; [lia|].
  apply (maximum_value_monotone_capacity canonical_heap canonical_orders 5 10);
    [exact Hv|exact Hw|lia|lia].
Defined.

Lemma maximum_value_monotone_orders_witness :
  nonneg_weights canonical_heap [0%nat; 1%nat; 2%nat] /\
  0 <= value (canonical_heap 3%nat) /\
  0 <= weight (canonical_heap 3%nat) /\
  0 <= 10 /\
  exists r r',
    fst (maximum_value [0%nat; 1%nat; 2%nat] 10 canonical_heap) = Ok r /\
    fst (maximum_value ([0%nat; 1%nat; 2%nat] ++ [3%nat]) 10 canonical_heap)
    = Ok r' /\
    r <= r'.
Proof.
  assert (Hw : nonneg_weights canonical_heap [0%nat; 1%nat; 2%nat])
    by concrete_forall.
  split; [exact Hw|]. split; [cbn; lia|]. split; [cbn; lia|]. split; [lia|].
  apply (maximum_value_monotone_orders canonical_heap [0%nat; 1%nat; 2%nat]
           3%nat 10); [exact Hw|cbn; lia|cbn; lia|lia].
Defined.

Lemma zero_cases_witness :
  (0 <= 10 /\ fst (maximum_value [] 10 canonical_heap) = Ok 0) /\
  fst (maximum_value canonical_orders 0 canonical_heap) = Ok 0 /\
  (0 <= 2 /\
   Forall (fun a => 2 < weight (canonical_heap a)) canonical_orders /\
   fst (maximum_value canonical_orders 2 canonical_heap) = Ok 0).
Proof.
  destruct zero_cases as (Hnone & Hzero & Hheavy).
  assert (Hall : Forall (fun a => 2 < weight (canonical_heap a)) canonical_orders)
    by concrete_forall.
  split; [split; [lia|apply Hnone; lia]|].
  split; [apply Hzero|].
  split; [lia|]. split; [exact Hall|]. apply Hheavy; [lia|exact Hall].
Defined.

Lemma sentinel_never_escapes_witness :
  nonneg_values canonical_heap canonical_orders /\
  nonneg_weights canonical_heap canonical_orders /\
  0 <= 10 /\
  exists tbl r,
    cell (fresh_table 4 10) 4 10 = -1 /\
    m canonical_heap canonical_orders 4 10 (fresh_table 4 10) = Ok tbl /\
    cell tbl 4 10 = r /\
    fst (maximum_value_dynamic_solution_memoized canonical_orders 10 canonical_heap)
    = Ok r /\
    0 <= r /\ r <> -1.
Proof.
  assert (Hv : nonneg_values canonical_heap canonical_orders)
    by concrete_forall.
  assert (Hw : nonneg_weights canonical_heap canonical_orders)
    by concrete_forall.
  split; [exact Hv|]. split; [exact Hw|]. split; [lia|].
  apply (sentinel_never_escapes canonical_heap canonical_orders 10 Hv Hw).
  lia.
Defined.

Lemma solvers_frame_witness :
  let s := mkWorld canonical_orders canonical_heap in
  ~ In 2%nat (filter (fits canonical_heap 5) canonical_orders) /\
  dicts (snd (maximum_value_greedy_approx_run 5 s)) 2%nat = canonical_heap 2%nat /\
  fst (maximum_value_greedy_approx_run 5 s) = Ok 50 /\
  In 3%nat (filter (fits canonical_heap 5) canonical_orders) /\
  exists q,
    truediv 50 3 = Ok q /\
    ratio (dicts (snd (maximum_value_greedy_approx_run 5 s)) 3%nat) = Some q.
Proof.
  intros s.
  destruct (solvers_frame 5 s) as (_ & _ & _ & _ & _ & Hout & Hin).
  assert (H2 : ~ In 2%nat (filter (fits canonical_heap 5) canonical_orders)).
  { cbv. intros [E|[E|[E|[]]]]; discriminate E. }
  assert (H3 : In 3%nat (filter (fits canonical_heap 5) canonical_orders)).
  { cbv. right. right. left. reflexivity. }
  assert (Hr : fst (maximum_value_greedy_approx_run 5 s) = Ok 50)
    by (vm_compute; reflexivity).
  split; [exact H2|]. split; [exact (Hout 2%nat H2)|]. split; [exact Hr|].
  split; [exact H3|]. exact (Hin 50 3%nat Hr H3).
Defined.

(** * Further properties of the solvers *)

(** ** What the dynamic program returns *)

(** The value of the recurrence is the value of some orders of the input,
    taken in order, whose weights fit. *)
Lemma knap_selection (h : heap) (orders : list ref) (W : Z) :
  0 <= W ->
  exists c,
    subseq c orders /\
    total_weight (map h c) <= W /\
    total_value (map h c) = knap (rev (map h orders)) W.
Proof.
  intros HW.
  destruct (knap_achieved (rev (map h orders)) W HW) as (c & Hs & Hfit & Hval).
  apply subseq_rev in Hs. rewrite rev_involutive in Hs.
  apply subseq_map_inv in Hs as (c0 & Hs0 & E0).
  exists c0. rewrite E0, total_weight_rev, total_value_rev. auto.
Qed.

Lemma knap_bounds_subseq (h : heap) (orders c : list ref) (W : Z) :
  nonneg_values h orders -> positive_weights h orders ->
  subseq c orders -> total_weight (map h c) <= W ->
  total_value (map h c) <= knap (rev (map h orders)) W.
Proof.
  intros Hv Hw Hs Hfit. destruct (subseq_perm _ _ Hs) as [c' Hperm].
  apply knap_upper with (c' := map h c'); auto.
  - now apply (Forall_rev_map (fun o => 0 <= value o)).
  - now apply (Forall_rev_map (fun o => 0 < weight o)).
  - rewrite <- map_app, <- map_rev.
    apply Permutation_map. rewrite Hperm. apply Permutation_rev.
Qed.

(** X1: with non-negative values, positive weights and a non-negative
    capacity, [maximum_value] returns the optimum: the result is the total
    value of some orders of the input whose total weight is within the
    capacity, and no such selection is worth more. *)
Theorem maximum_value_optimal (h : heap) (orders : list ref) (W : Z) :
  nonneg_values h orders -> positive_weights h orders -> 0 <= W ->
  exists r,
    fst (maximum_value orders W h) = Ok r /\
    (exists c, subseq c orders /\ total_weight (map h c) <= W /\
               total_value (map h c) = r) /\
    (forall c, subseq c orders -> total_weight (map h c) <= W ->
               total_value (map h c) <= r).
Proof.
  intros Hv Hw HW. exists (knap (rev (map h orders)) W). split; [|split].
  - apply maximum_value_knap; [now apply positive_nonneg_weights|assumption].
  - now apply knap_selection.
  - intros c. now apply knap_bounds_subseq.
Qed.

Lemma knap_permutation (l l' : list order) (W : Z) :
  Forall (fun o => 0 <= value o) l -> Forall (fun o => 0 < weight o) l ->
  Permutation l l' -> 0 <= W -> knap l W <= knap l' W.
Proof.
  intros Hv Hw Hperm HW.
  destruct (knap_achieved l W HW) as (c & Hs & Hfit & <-).
  destruct (subseq_perm _ _ Hs) as [c' Hc].
  apply knap_upper with (c' := c'); auto.
  - now rewrite <- Hperm.
  - now rewrite <- Hperm.
  - now rewrite Hc.
Qed.

(** X2: with non-negative values and positive weights the result of
    [maximum_value] does not depend on the order in which the orders are
    listed. *)
Theorem maximum_value_permutation (h : heap) (orders orders' : list ref) (W : Z) :
  nonneg_values h orders -> positive_weights h orders -> 0 <= W ->
  Permutation orders orders' ->
  exists r,
    fst (maximum_value orders W h) = Ok r /\
    fst (maximum_value orders' W h) = Ok r.
Proof.
  intros Hv Hw HW Hperm.
  assert (Hv' : nonneg_values h orders') by (unfold nonneg_values; now rewrite <- Hperm).
  assert (Hw' : positive_weights h orders')
    by (unfold positive_weights; now rewrite <- Hperm).
  assert (Hp : Permutation (rev (map h orders)) (rev (map h orders'))).
  { rewrite <- !Permutation_rev. now apply Permutation_map. }
  exists (knap (rev (map h orders)) W). split.
  - apply maximum_value_knap; [now apply positive_nonneg_weights|assumption].
  - rewrite maximum_value_knap; [|now apply positive_nonneg_weights|assumption].
    f_equal. apply Z.le_antisymm.
    + apply knap_permutation; [| |now apply Permutation_sym|assumption].
      * now apply (Forall_rev_map (fun o => 0 <= value o)).
      * now apply (Forall_rev_map (fun o => 0 < weight o)).
    + apply knap_permutation; [| |assumption|assumption].
      * now apply (Forall_rev_map (fun o => 0 <= value o)).
      * now apply (Forall_rev_map (fun o => 0 < weight o)).
Qed.

Lemma knap_drop_heavy (W : Z) (l : list order) :
  Forall (fun o => 0 <= weight o) l ->
  forall j, j <= W ->
    knap (filter (fun o => negb (weight o >? W)) l) j = knap l j.
Proof.
  induction 1 as [|o l Ho Hl IH]; intros j Hj; [reflexivity|].
  cbn [filter]. destruct (Z_le_gt_dec j 0) as [Hj0|Hj0].
  { now rewrite !knap_nonpos. }
  destruct (weight o >? W) eqn:HoW; cbn [negb].
  - apply gtb_true_lt in HoW. rewrite (knap_cons_pos o l) by lia.
    replace (weight o >? j) with true by (symmetry; apply Z.gtb_lt; lia).
    now apply IH.
  - rewrite !knap_cons_pos by lia.
    rewrite IH by assumption. rewrite (IH (j - weight o)) by lia. reflexivity.
Qed.

(** X3: an order heavier than the capacity has no influence on the dynamic
    program: with non-negative weights, [maximum_value] returns the same on
    the input and on the input without the orders that do not fit. *)
Theorem maximum_value_ignores_heavy (h : heap) (orders : list ref) (W : Z) :
  nonneg_weights h orders -> 0 <= W ->
  exists r,
    fst (maximum_value orders W h) = Ok r /\
    fst (maximum_value (filter (fits h W) orders) W h) = Ok r.
Proof.
  intros Hw HW. exists (knap (rev (map h orders)) W). split.
  - now apply maximum_value_knap.
  - rewrite maximum_value_knap; [|now apply Forall_filter_in|assumption].
    f_equal. rewrite <- (knap_drop_heavy W (rev (map h orders))).
    + rewrite filter_rev, filter_map_swap. reflexivity.
    + now apply (Forall_rev_map (fun o => 0 <= weight o)).
    + lia.
Qed.

(** X4: a negative capacity makes the table rows empty, and the first
    store into the table raises: [maximum_value] raises [IndexError] for
    every list of orders. *)
Theorem maximum_value_negative_capacity (h : heap) (orders : list ref) (W : Z) :
  W < 0 -> fst (maximum_value orders W h) = Raise IndexError.
Proof.
  intros HW. cbn. unfold memoized_result. cbv zeta.
  set (n := length orders).
  assert (Hrow : Z.to_nat (W + 1) = 0%nat) by lia.
  assert (Hset : table_set (fresh_table n W) (Z.of_nat n) W 0 = Raise IndexError).
  { unfold table_set, fresh_table. rewrite Hrow.
    rewrite (getitem_nth _ n []) by (rewrite repeat_length; lia).
    rewrite nth_repeat. cbn [bind repeat].
    unfold setitem, py_index. cbn [length].
    replace (0 <=? W) with false by (symmetry; apply Z.leb_gt; lia).
    replace (- Z.of_nat 0 <=? W) with false by (symmetry; apply Z.leb_gt; lia).
    rewrite andb_false_r. reflexivity. }
  assert (E : m h orders n W (fresh_table n W) = Raise IndexError).
  { destruct n as [|k]; cbn [m]; [exact Hset|].
    replace (W <=? 0) with true by (symmetry; apply Z.leb_le; lia).
    exact Hset. }
  now rewrite E.
Qed.

(** ** What the exhaustive search returns *)

Lemma naive_candidates (filtered c : list ref) :
  In c (flat_map (combinations filtered) (range_down (length filtered)))
  <-> subseq c filtered /\ c <> [].
Proof.
  rewrite in_flat_map. split.
  - intros (k & Hk & Hc). apply in_range_down in Hk.
    apply combinations_subseq in Hc as [Hs Hl]. split; [assumption|].
    intros ->. cbn in Hl. lia.
  - intros [Hs Hne]. exists (length c). split.
    + apply in_range_down. pose proof (subseq_length _ _ Hs).
      destruct c; [congruence|cbn in *; lia].
    + now apply subseq_combinations.
Qed.

Lemma naive_body_ok (h : heap) (W acc : Z) (c : list ref) :
  c <> [] -> exists r, naive_body h W acc c = Ok r /\ acc <= r.
Proof.
  intros Hne. unfold naive_body. destruct c as [|a c]; [congruence|].
  cbn [map reduce bind].
  set (payload := fold_left add _ _).
  destruct (c_weight payload <=? W); cbn [andb].
  - destruct (c_value payload >? acc) eqn:Hgt.
    + apply gtb_true_lt in Hgt. eexists; split; [reflexivity|lia].
    + eexists; split; [reflexivity|lia].
  - eexists; split; [reflexivity|lia].
Qed.

Lemma naive_loop_ok (h : heap) (W : Z) (cands : list (list ref)) :
  Forall (fun c => c <> []) cands ->
  forall acc, exists r, for_each (naive_body h W) cands acc = Ok r /\ acc <= r.
Proof.
  induction 1 as [|c cands Hc _ IH]; intros acc.
  - exists acc. split; [reflexivity|lia].
  - cbn [for_each]. destruct (naive_body_ok h W acc c Hc) as (r1 & E1 & H1).
    rewrite E1. cbn [bind]. destruct (IH r1) as (r & E & Hr).
    exists r. split; [assumption|lia].
Qed.

(** X5: the exhaustive search never raises and never returns a negative
    number, whatever integers the orders and the capacity hold. *)
Theorem naive_never_raises (h : heap) (orders : list ref) (W : Z) :
  exists r, fst (maximum_value_naive orders W h) = Ok r /\ 0 <= r.
Proof.
  cbn. unfold naive_result. cbv zeta. rewrite for_each_nested.
  apply naive_loop_ok. apply Forall_forall. intros c Hc.
  now apply naive_candidates in Hc.
Qed.

(** On non-negative values and weights the exhaustive search returns the
    largest value among the selections that fit. *)
Lemma naive_result_best (h : heap) (orders : list ref) (W : Z) :
  nonneg_values h orders -> nonneg_weights h orders -> 0 <= W ->
  exists r,
    naive_result h orders W = Ok r /\
    (exists c, subseq c orders /\ total_weight (map h c) <= W /\
               total_value (map h c) = r) /\
    (forall c, subseq c orders -> total_weight (map h c) <= W ->
               total_value (map h c) <= r).
Proof.
  intros Hv Hw HW. unfold naive_result. cbv zeta.
  set (filtered := filter (fits h W) orders).
  rewrite for_each_nested.
  set (cands := flat_map (combinations filtered) (range_down (length filtered))).
  assert (Hsub : subseq filtered orders) by apply subseq_filter.
  destruct (naive_loop h W cands) with (acc := 0)
    as (r & E & Hr & Hall & Hsome).
  { apply Forall_forall. intros c Hc. apply naive_candidates in Hc as [Hs Hne].
    pose proof (subseq_trans _ _ _ Hs Hsub) as Hso.
    repeat split; [assumption| |]; eapply Forall_subseq; eassumption. }
  exists r. split; [exact E|]. split.
  - destruct Hsome as [->|(c & Hin & Hfit & ->)].
    + exists []. repeat split; [apply subseq_nil_l|exact HW].
    + exists c. apply naive_candidates in Hin as [Hs _].
      repeat split; [eapply subseq_trans; eassumption|assumption].
  - intros c Hs Hfit. destruct c as [|a c]; [cbn; lia|].
    apply Hall; [|assumption]. apply naive_candidates. split; [|discriminate].
    apply subseq_into_filter; [assumption|].
    apply Forall_forall. intros b Hb. unfold fits.
    apply negb_true_iff. rewrite Z.gtb_ltb. apply Z.ltb_ge.
    pose proof (weight_le_total h (a :: c) b (Forall_subseq _ _ _ Hs Hw) Hb).
    lia.
Qed.

(** X6: with non-negative values and non-negative weights, zero included,
    the exhaustive search returns the optimum: the total value of some
    orders of the input that fit together, and no selection that fits is
    worth more. *)
Theorem naive_optimal (h : heap) (orders : list ref) (W : Z) :
  nonneg_values h orders -> nonneg_weights h orders -> 0 <= W ->
  exists r,
    fst (maximum_value_naive orders W h) = Ok r /\
    (exists c, subseq c orders /\ total_weight (map h c) <= W /\
               total_value (map h c) = r) /\
    (forall c, subseq c orders -> total_weight (map h c) <= W ->
               total_value (map h c) <= r).
Proof. intros Hv Hw HW. cbn [maximum_value_naive fst]. now apply naive_result_best. Qed.


(** X9: when every order is heavier than the capacity, the exhaustive
    search and the greedy solver return 0, and the greedy solver leaves the
    orders untouched. *)
Theorem nothing_fits (h : heap) (orders : list ref) (W : Z) :
  Forall (fun a => W < weight (h a)) orders ->
  fst (maximum_value_naive orders W h) = Ok 0 /\
  maximum_value_greedy_approx orders W h = (Ok 0, h).
Proof.
  intros Hheavy.
  assert (E : filter (fits h W) orders = []).
  { induction Hheavy as [|a l Ha _ IH]; [reflexivity|]. cbn [filter].
    unfold fits at 1.
    replace (weight (h a) >? W) with true by (symmetry; apply Z.gtb_lt; lia).
    exact IH. }
  split.
  - cbn. unfold naive_result. cbv zeta. now rewrite E.
  - unfold maximum_value_greedy_approx. cbv zeta. now rewrite E.
Qed.

(** ** When the greedy solver raises *)

Lemma reduce_nonempty {A : Type} (f : A -> A -> A) (l : list A) :
  l <> [] -> exists x, reduce f l = Ok x.
Proof. destruct l as [|y l]; [congruence|]. intros _. eexists. reflexivity. Qed.

Lemma greedy_fill_ok (h : heap) (W : Z) (rest : list ref) :
  forall final_order payload,
    exists p, greedy_fill h W rest final_order payload = Ok p.
Proof.
  induction rest as [|a rest IH]; intros fo payload; cbn [greedy_fill].
  - now exists payload.
  - destruct (c_weight payload =? W); [now exists payload|].
    destruct (c_weight payload + weight (h a) >? W); [apply IH|]. cbv zeta.
    destruct (reduce_nonempty add (map (fun b => Counter (h b)) (fo ++ [a])))
      as [p Hp].
    { destruct fo; cbn; discriminate. }
    rewrite Hp. cbn [bind]. apply IH.
Qed.

Lemma greedy_result_ok (h : heap) (l : list ref) (W : Z) (q : ref -> float) :
  l <> [] -> (forall a, In a l -> ratio (h a) = Some (q a)) ->
  exists r, greedy_result h l W = Ok r.
Proof.
  intros Hne Hr. unfold greedy_result.
  destruct (sorted_by_ratio_perm h l q Hr) as (s & E & Hperm).
  rewrite E. cbn [bind].
  destruct s as [|first rest].
  { apply Permutation_nil in Hperm. contradiction. }
  change (getitem (first :: rest) 0) with (Ok first) at 1.
  cbn [bind tl map reduce fold_left].
  destruct (greedy_fill_ok h W rest [first] (Counter (h first))) as [p Hp].
  rewrite Hp. cbn [bind]. eexists. reflexivity.
Qed.

Lemma truediv_raise (a b : Z) (e : exn) :
  truediv a b = Raise e ->
  e = ZeroDivisionError /\ b = 0 \/ e = OverflowError /\ b <> 0.
Proof.
  unfold truediv. destruct (Z.eqb_spec b 0) as [->|Hb].
  - intros E. injection E as <-. now left.
  - destruct (py_quotient a b); intros E; try discriminate;
      injection E as <-; now right.
Qed.

Lemma update_ratios_first_failure (pre : list ref) (a : ref) (post : list ref)
    (e : exn) :
  forall h,
    Forall (ratio_defined h) pre ->
    truediv (value (h a)) (weight (h a)) = Raise e ->
    fst (update_ratios (pre ++ a :: post) h) = Raise e.
Proof.
  induction pre as [|b pre IH]; intros h Hpre Ha; cbn [app update_ratios].
  - now rewrite Ha.
  - inversion Hpre as [|? ? Hb Hpre']; subst.
    rewrite (ratio_defined_ok h b Hb).
    pose proof (update_ratio_same_contents h b (ratio_of h b)) as Hs.
    apply IH.
    + eapply Forall_impl; [|exact Hpre']. intros c.
      now apply ratio_defined_same_contents.
    + now destruct (Hs a) as [-> ->].
Qed.

(** X10: the only failures of the greedy solver are the divisions
    [value / weight]: when the division returns for every order that fits,
    the solver returns a number, whatever integers the orders and the
    capacity hold; otherwise it raises what the first failing division
    raises, [ZeroDivisionError] for a weight of zero and [OverflowError] for
    a quotient beyond the double range. *)
Theorem greedy_fails_only_at_division (h : heap) (orders : list ref) (W : Z) :
  (Forall (ratio_defined h) (filter (fits h W) orders) ->
   exists r, fst (maximum_value_greedy_approx orders W h) = Ok r) /\
  (forall pre a post e,
      filter (fits h W) orders = pre ++ a :: post ->
      Forall (ratio_defined h) pre ->
      truediv (value (h a)) (weight (h a)) = Raise e ->
      fst (maximum_value_greedy_approx orders W h) = Raise e /\
      (e = ZeroDivisionError /\ weight (h a) = 0 \/
       e = OverflowError /\ weight (h a) <> 0)).
Proof.
  unfold maximum_value_greedy_approx. cbv zeta.
  set (filtered := filter (fits h W) orders). split.
  - intros Hdef.
    destruct (length filtered =? 0)%nat eqn:Hlen; [now exists 0|].
    apply Nat.eqb_neq in Hlen.
    destruct (update_ratios_ok filtered h Hdef) as (h' & E & Hr).
    rewrite E. cbn [fst].
    apply (greedy_result_ok h' filtered W (ratio_of h)); [|assumption].
    intros E0. rewrite E0 in Hlen. cbn in Hlen. lia.
  - intros pre a post e Hsplit Hpre Ha.
    split; [|exact (truediv_raise _ _ _ Ha)].
    rewrite Hsplit.
    replace (length (pre ++ a :: post) =? 0)%nat with false
      by (symmetry; apply Nat.eqb_neq; rewrite length_app; cbn; lia).
    pose proof (update_ratios_first_failure pre a post e h Hpre Ha) as Hf.
    destruct (update_ratios (pre ++ a :: post) h) as [[u|e'] h']; cbn in Hf;
      [discriminate Hf|]. cbn. now injection Hf as ->.
Qed.

(** ** What the greedy solver returns *)

(** X11: with non-negative integer values, positive weights, a
    non-negative capacity and the ratio of every order that fits within the
    double range, the greedy solver returns the total value of orders picked
    from the input, each at most as often as it occurs there, whose total
    weight is within the capacity. *)
Theorem greedy_feasible (h : heap) (orders : list ref) (W : Z) :
  nonneg_values h orders -> positive_weights h orders -> 0 <= W ->
  Forall (ratio_defined h) (filter (fits h W) orders) ->
  exists sel skipped,
    fst (maximum_value_greedy_approx orders W h) = Ok (total_value (map h sel)) /\
    Permutation (sel ++ skipped) orders /\
    total_weight (map h sel) <= W.
Proof. apply greedy_selects. Qed.

Lemma total_value_perm (l l' : list order) :
  Permutation l l' -> total_value l = total_value l'.
Proof. induction 1; cbn; lia. Qed.

Lemma total_weight_perm (l l' : list order) :
  Permutation l l' -> total_weight l = total_weight l'.
Proof. induction 1; cbn; lia. Qed.

Lemma total_value_subseq (c l : list order) :
  Forall (fun o => 0 <= value o) l -> subseq c l ->
  total_value c <= total_value l.
Proof.
  intros Hl Hs. revert Hl.
  induction Hs as [|x c l _ IH|x c l _ IH]; intros Hl; cbn; [lia| |];
    inversion Hl as [|? ? Hx Hl']; subst; specialize (IH Hl'); lia.
Qed.

(** When everything that is left fits, the loop takes all of it. *)
Lemma greedy_fill_all (h : heap) (W : Z) (rest : list ref) :
  forall final_order,
    final_order <> [] ->
    nonneg_values h (final_order ++ rest) ->
    positive_weights h (final_order ++ rest) ->
    total_weight (map h (final_order ++ rest)) <= W ->
    greedy_fill h W rest final_order
      (mkCounter (total_value (map h final_order))
                 (total_weight (map h final_order)))
    = Ok (mkCounter (total_value (map h (final_order ++ rest)))
                    (total_weight (map h (final_order ++ rest)))).
Proof.
  induction rest as [|a rest IH]; intros fo Hne Hv Hw Hfit.
  - cbn. now rewrite app_nil_r.
  - cbn [greedy_fill c_weight].
    assert (Hwa : 0 < weight (h a)).
    { unfold positive_weights in Hw. rewrite Forall_app in Hw.
      destruct Hw as [_ Hw]. now inversion Hw. }
    assert (Hrest : 0 <= total_weight (map h rest)).
    { apply total_weight_nonneg, Forall_map.
      unfold positive_weights in Hw. rewrite Forall_app in Hw.
      destruct Hw as [_ Hw]. inversion Hw; subst.
      eapply Forall_impl; [|eassumption]. cbn; intros; lia. }
    rewrite map_app, total_weight_app in Hfit. cbn in Hfit.
    replace (total_weight (map h fo) =? W) with false
      by (symmetry; apply Z.eqb_neq; lia).
    replace (total_weight (map h fo) + weight (h a) >? W) with false
      by (symmetry; rewrite Z.gtb_ltb; apply Z.ltb_ge; lia).
    cbv zeta.
    assert (Hv' : nonneg_values h ((fo ++ [a]) ++ rest))
      by now rewrite <- app_assoc.
    assert (Hw' : positive_weights h ((fo ++ [a]) ++ rest))
      by now rewrite <- app_assoc.
    rewrite reduce_payload.
    + cbn [bind]. rewrite IH; auto.
      * now rewrite <- app_assoc.
      * destruct fo; cbn; discriminate.
      * rewrite <- app_assoc. cbn. rewrite map_app, total_weight_app. cbn. lia.
    + destruct fo; cbn; discriminate.
    + unfold nonneg_values in *. rewrite Forall_app in Hv'. apply Hv'.
    + apply positive_nonneg_weights.
      unfold positive_weights in *. rewrite Forall_app in Hw'. apply Hw'.
Qed.

Lemma greedy_result_all (h : heap) (l : list ref) (W : Z) (q : ref -> float) :
  l <> [] ->
  nonneg_values h l -> positive_weights h l ->
  total_weight (map h l) <= W ->
  (forall a, In a l -> ratio (h a) = Some (q a)) ->
  greedy_result h l W = Ok (total_value (map h l)).
Proof.
  intros Hne Hv Hw Hfit Hr. unfold greedy_result.
  destruct (sorted_by_ratio_perm h l q Hr) as (s & E & Hperm).
  rewrite E. cbn [bind].
  destruct s as [|first rest].
  { apply Permutation_nil in Hperm. contradiction. }
  change (getitem (first :: rest) 0) with (Ok first) at 1. cbn [bind tl].
  assert (Hv' : nonneg_values h ([first] ++ rest))
    by (unfold nonneg_values; cbn; now rewrite Hperm).
  assert (Hw' : positive_weights h ([first] ++ rest))
    by (unfold positive_weights; cbn; now rewrite Hperm).
  rewrite reduce_payload; try discriminate.
  - cbn [bind]. rewrite greedy_fill_all; auto; try discriminate.
    + cbn [bind c_value app]. f_equal.
      apply total_value_perm. now apply Permutation_map.
    + cbn [app]. rewrite (total_weight_perm _ (map h l)); [assumption|].
      now apply Permutation_map.
  - unfold nonneg_values in *. rewrite Forall_app in Hv'. apply Hv'.
  - apply positive_nonneg_weights.
    unfold positive_weights in *. rewrite Forall_app in Hw'. apply Hw'.
Qed.

(** X12: with non-negative integer values, positive weights and the ratio
    of every order that fits within the double range, when the orders that
    fit one by one also fit all together, the greedy solver takes them all,
    and that is the optimum [maximum_value] returns. *)
Theorem greedy_exact_when_all_fit (h : heap) (orders : list ref) (W : Z) :
  nonneg_values h orders -> positive_weights h orders -> 0 <= W ->
  Forall (ratio_defined h) (filter (fits h W) orders) ->
  total_weight (map h (filter (fits h W) orders)) <= W ->
  fst (maximum_value_greedy_approx orders W h)
  = Ok (total_value (map h (filter (fits h W) orders))) /\
  fst (maximum_value orders W h)
  = Ok (total_value (map h (filter (fits h W) orders))).
Proof.
  intros Hv Hw HW Hdef Hfit. split.
  - unfold maximum_value_greedy_approx. cbv zeta.
    set (filtered := filter (fits h W) orders) in *.
    destruct (length filtered =? 0)%nat eqn:Hlen.
    { apply Nat.eqb_eq, length_zero_iff_nil in Hlen. now rewrite Hlen. }
    apply Nat.eqb_neq in Hlen.
    assert (Hne : filtered <> [])
      by (intros E; rewrite E in Hlen; cbn in Hlen; lia).
    assert (Hvf : nonneg_values h filtered) by now apply Forall_filter_in.
    assert (Hwf : positive_weights h filtered) by now apply Forall_filter_in.
    destruct (update_ratios_ok filtered h Hdef) as (h' & E & Hr).
    rewrite E. cbn [fst].
    pose proof (update_ratios_frame filtered h) as [Hs _].
    rewrite E in Hs. cbn [snd] in Hs.
    rewrite (greedy_result_all h' filtered W (ratio_of h)); auto.
    + f_equal. now apply total_value_same_contents.
    + apply (Forall_same_contents (fun x _ => 0 <= x) h h'); assumption.
    + apply (Forall_same_contents (fun _ y => 0 < y) h h'); assumption.
    + now rewrite (total_weight_same_contents h h').
  - rewrite maximum_value_knap;
      [|now apply positive_nonneg_weights|assumption].
    f_equal. apply Z.le_antisymm.
    + destruct (knap_selection h orders W HW) as (c & Hs & Hc & <-).
      apply total_value_subseq.
      * apply Forall_map. now apply Forall_filter_in.
      * assert (Hin : subseq c (filter (fits h W) orders)).
        { apply subseq_into_filter; [assumption|].
          apply Forall_forall. intros b Hb. unfold fits.
          apply negb_true_iff. rewrite Z.gtb_ltb. apply Z.ltb_ge.
          pose proof (weight_le_total h c b
                        (Forall_subseq _ _ _ Hs (positive_nonneg_weights _ _ Hw))
                        Hb). lia. }
        clear - Hin. induction Hin; cbn; now constructor.
    + apply knap_bounds_subseq; auto. apply subseq_filter.
Qed.

(** ** The solvers read values and weights only *)

Lemma m_same_contents (h1 h2 : heap) (orders : list ref) :
  same_contents h1 h2 ->
  forall i j tbl, m h2 orders i j tbl = m h1 orders i j tbl.
Proof.
  intros Hs.
  assert (Hw : forall i, w h2 orders i = w h1 orders i).
  { intros i. unfold w. destruct (getitem orders (Z.of_nat i)) as [a|e]; cbn;
      [now destruct (Hs a) as [_ ->]|reflexivity]. }
  assert (Hv : forall i, v h2 orders i = v h1 orders i).
  { intros i. unfold v. destruct (getitem orders (Z.of_nat i)) as [a|e]; cbn;
      [now destruct (Hs a) as [-> _]|reflexivity]. }
  induction i as [|i IH]; intros j tbl; cbn [m]; [reflexivity|].
  destruct (j <=? 0); [reflexivity|].
  destruct (table_get tbl (Z.of_nat i) j) as [c|e]; cbn [bind]; [|reflexivity].
  rewrite IH.
  destruct (if c =? -1 then m h1 orders i j tbl else Ok tbl) as [tbl1|e];
    cbn [bind]; [|reflexivity].
  rewrite Hw. destruct (w h1 orders i) as [wi|e]; cbn [bind]; [|reflexivity].
  destruct (wi >? j); [reflexivity|].
  destruct (table_get tbl1 (Z.of_nat i) (j - wi)) as [c'|e]; cbn [bind];
    [|reflexivity].
  rewrite IH.
  destruct (if c' =? -1 then m h1 orders i (j - wi) tbl1 else Ok tbl1)
    as [tbl2|e]; cbn [bind]; [|reflexivity].
  destruct (table_get tbl2 (Z.of_nat i) j) as [x|e]; cbn [bind]; [|reflexivity].
  destruct (table_get tbl2 (Z.of_nat i) (j - wi)) as [y|e]; cbn [bind];
    [|reflexivity].
  now rewrite Hv.
Qed.

Lemma for_each_ext {A B : Type} (f g : A -> B -> result A) (l : list B) :
  (forall a x, f a x = g a x) -> forall a, for_each f l a = for_each g l a.
Proof.
  intros Hfg. induction l as [|x l IH]; intros a; cbn; [reflexivity|].
  rewrite Hfg. destruct (g a x); cbn; [apply IH|reflexivity].
Qed.

Lemma naive_result_same_contents (h1 h2 : heap) (orders : list ref) (W : Z) :
  same_contents h1 h2 -> naive_result h2 orders W = naive_result h1 orders W.
Proof.
  intros Hs. unfold naive_result. cbv zeta.
  rewrite (filter_fits_same_contents h1 h2) by assumption.
  apply for_each_ext. intros acc k. apply for_each_ext. intros acc' c.
  unfold naive_body. f_equal. f_equal. apply map_ext. intros a.
  unfold Counter. now destruct (Hs a) as [-> ->].
Qed.

Lemma map_result_ext {A B : Type} (f g : A -> result B) (l : list A) :
  (forall x, In x l -> f x = g x) -> map_result f l = map_result g l.
Proof.
  induction l as [|x l IH]; intros Hfg; cbn; [reflexivity|].
  rewrite (Hfg x) by now left.
  rewrite IH by (intros y Hy; apply Hfg; now right). reflexivity.
Qed.

Lemma map_result_length {A B : Type} (f : A -> result B) (l : list A) :
  forall ys, map_result f l = Ok ys -> length ys = length l.
Proof.
  induction l as [|x l IH]; intros ys; cbn.
  - intros E. now injection E as <-.
  - destruct (f x) as [y|e]; cbn; [|discriminate].
    destruct (map_result f l) as [ys'|e]; cbn; [|discriminate].
    intros E. injection E as <-. cbn. now rewrite (IH ys').
Qed.

Lemma map_snd_combine_length {A B : Type} (keys : list A) (l : list B) :
  length keys = length l -> map snd (combine keys l) = l.
Proof.
  revert keys. induction l as [|x l IH]; intros [|k keys] Hlen;
    cbn in *; try discriminate; [reflexivity|].
  f_equal. apply IH. lia.
Qed.

(** Whatever [sorted] returns is a rearrangement of its input. *)
Lemma sorted_by_ratio_inv (h : heap) (l s : list ref) :
  sorted_by_ratio h l = Ok s -> Permutation s l.
Proof.
  unfold sorted_by_ratio.
  destruct (map_result (ratio_key h) l) as [keys|e] eqn:E; cbn; [|discriminate].
  intros Es. injection Es as <-.
  rewrite sorted_desc_perm.
  now rewrite map_snd_combine_length by (eapply map_result_length; eassumption).
Qed.

Lemma greedy_fill_ext (h1 h2 : heap) (W : Z) (rest : list ref) :
  forall final_order payload,
    (forall a, In a (final_order ++ rest) -> h1 a = h2 a) ->
    greedy_fill h1 W rest final_order payload
    = greedy_fill h2 W rest final_order payload.
Proof.
  induction rest as [|a rest IH]; intros fo payload Heq; [reflexivity|].
  cbn [greedy_fill]. rewrite (Heq a) by (apply in_or_app; right; now left).
  destruct (c_weight payload =? W); [reflexivity|].
  destruct (c_weight payload + weight (h2 a) >? W).
  - apply IH. intros b Hb. apply Heq.
    apply in_app_or in Hb as [Hb|Hb]; apply in_or_app; [now left|right; now right].
  - cbv zeta.
    replace (map (fun b => Counter (h1 b)) (fo ++ [a]))
      with (map (fun b => Counter (h2 b)) (fo ++ [a])).
    + destruct (reduce add _) as [p|e]; cbn [bind]; [|reflexivity].
      apply IH. intros b Hb. apply Heq. now rewrite <- app_assoc in Hb.
    + apply map_ext_in. intros b Hb. rewrite Heq; [reflexivity|].
      apply in_app_or in Hb as [Hb|[<-|[]]]; apply in_or_app;
        [now left|right; now left].
Qed.

Lemma greedy_result_ext (h1 h2 : heap) (l : list ref) (W : Z) :
  (forall a, In a l -> h1 a = h2 a) ->
  greedy_result h1 l W = greedy_result h2 l W.
Proof.
  intros Heq. unfold greedy_result.
  assert (Es : sorted_by_ratio h1 l = sorted_by_ratio h2 l).
  { unfold sorted_by_ratio. f_equal. apply map_result_ext.
    intros a Ha. unfold ratio_key. now rewrite (Heq a Ha). }
  rewrite Es. destruct (sorted_by_ratio h2 l) as [s|e] eqn:E; cbn [bind];
    [|reflexivity].
  apply sorted_by_ratio_inv in E.
  destruct s as [|first rest]; [reflexivity|].
  change (getitem (first :: rest) 0) with (Ok first). cbn [bind tl map reduce fold_left].
  assert (Hin : forall a, In a ([first] ++ rest) -> h1 a = h2 a).
  { intros a Ha. apply Heq. eapply Permutation_in; [exact E|exact Ha]. }
  rewrite (Hin first) by now left.
  now rewrite (greedy_fill_ext h1 h2 W rest [first] _ Hin).
Qed.

Lemma order_ext (o1 o2 : order) :
  value o1 = value o2 -> weight o1 = weight o2 -> ratio o1 = ratio o2 ->
  o1 = o2.
Proof. destruct o1, o2; cbn; intros; subst; reflexivity. Qed.

Lemma update_ratios_fst_same_contents (l : list ref) :
  forall h1 h2,
    same_contents h1 h2 ->
    fst (update_ratios l h2) = fst (update_ratios l h1).
Proof.
  induction l as [|a l IH]; intros h1 h2 Hs; cbn [update_ratios]; [reflexivity|].
  destruct (Hs a) as [-> ->].
  destruct (truediv (value (h1 a)) (weight (h1 a))) as [q|e]; [|reflexivity].
  apply IH. intros b. unfold update_ratio.
  destruct (Nat.eqb b a); [apply Hs|apply Hs].
Qed.

Lemma greedy_fst_same_contents (h1 h2 : heap) (orders : list ref) (W : Z) :
  same_contents h1 h2 ->
  fst (maximum_value_greedy_approx orders W h2)
  = fst (maximum_value_greedy_approx orders W h1).
Proof.
  intros Hs. unfold maximum_value_greedy_approx. cbv zeta.
  rewrite (filter_fits_same_contents h1 h2) by assumption.
  set (filtered := filter (fits h1 W) orders).
  destruct (length filtered =? 0)%nat; [reflexivity|].
  pose proof (update_ratios_fst_same_contents filtered h1 h2 Hs) as Hf.
  destruct (update_ratios filtered h1) as [[u1|e1] h1'] eqn:E1;
    destruct (update_ratios filtered h2) as [[u2|e2] h2'] eqn:E2;
    cbn [fst] in Hf; try discriminate Hf.
  - assert (Hd1 : Forall (ratio_defined h1) filtered)
      by (apply (update_ratios_defined filtered h1 u1); now rewrite E1).
    assert (Hd2 : Forall (ratio_defined h2) filtered)
      by (apply (update_ratios_defined filtered h2 u2); now rewrite E2).
    destruct (update_ratios_ok filtered h1 Hd1) as (h1'' & E1' & Hr1).
    destruct (update_ratios_ok filtered h2 Hd2) as (h2'' & E2' & Hr2).
    assert (h1'' = h1') by congruence. assert (h2'' = h2') by congruence.
    subst h1'' h2''. cbn [fst].
    pose proof (update_ratios_frame filtered h1) as [Hs1 _].
    pose proof (update_ratios_frame filtered h2) as [Hs2 _].
    rewrite E1 in Hs1. rewrite E2 in Hs2. cbn [snd] in Hs1, Hs2.
    symmetry. apply greedy_result_ext. intros a Ha.
    destruct (Hs a) as [Hva Hwa]. destruct (Hs1 a) as [Hv1 Hw1].
    destruct (Hs2 a) as [Hv2 Hw2].
    apply order_ext; [congruence|congruence|].
    rewrite (Hr1 a Ha), (Hr2 a Ha). f_equal. symmetry.
    now apply ratio_of_same_contents.
  - cbn [fst]. now injection Hf as ->.
Qed.

(** X13: the entry ['ratio'] that a greedy call leaves on the orders changes
    no later result: after [maximum_value_greedy_approx] has run on any
    orders and capacity, each of the four functions returns on any input
    what it would have returned before that call. *)
Theorem results_unchanged_after_greedy
    (h : heap) (orders0 : list ref) (W0 : Z) (orders : list ref) (W : Z) :
  let h' := snd (maximum_value_greedy_approx orders0 W0 h) in
  fst (maximum_value orders W h') = fst (maximum_value orders W h) /\
  fst (maximum_value_naive orders W h') = fst (maximum_value_naive orders W h) /\
  fst (maximum_value_dynamic_solution_memoized orders W h')
  = fst (maximum_value_dynamic_solution_memoized orders W h) /\
  fst (maximum_value_greedy_approx orders W h')
  = fst (maximum_value_greedy_approx orders W h).
Proof.
  intros h'.
  assert (Hs : same_contents h h') by apply greedy_same_contents.
  assert (Hm : memoized_result h' orders W = memoized_result h orders W).
  { unfold memoized_result. cbv zeta. now rewrite (m_same_contents h h'). }
  repeat split.
  - exact Hm.
  - cbn. now apply naive_result_same_contents.
  - exact Hm.
  - now apply greedy_fst_same_contents.
Qed.

(** ** Running the greedy solver again *)

Lemma update_ratios_ext (l : list ref) :
  forall h1 h2,
    (forall a, h1 a = h2 a) ->
    forall a, snd (update_ratios l h1) a = snd (update_ratios l h2) a.
Proof.
  induction l as [|b l IH]; intros h1 h2 Heq a; cbn [update_ratios].
  - apply Heq.
  - rewrite (Heq b).
    destruct (truediv (value (h2 b)) (weight (h2 b))) as [q|e]; [|apply Heq].
    apply IH. intros c. unfold update_ratio. rewrite (Heq b), (Heq c).
    reflexivity.
Qed.

Lemma update_ratios_cons (b : ref) (l : list ref) (h : heap) :
  update_ratios (b :: l) h =
  match truediv (value (h b)) (weight (h b)) with
  | Ok _ => update_ratios l (update_ratio h b (ratio_of h b))
  | Raise e => (Raise e, h)
  end.
Proof.
  cbn [update_ratios].
  destruct (truediv (value (h b)) (weight (h b))) as [q|e] eqn:E;
    [|reflexivity].
  apply truediv_ok in E. now subst q.
Qed.

(** A dict that already carries its own quotient is written back as it is. *)
Lemma update_ratios_keeps_ratio (l : list ref) :
  forall h a,
    ratio (h a) = Some (ratio_of h a) ->
    snd (update_ratios l h) a = h a.
Proof.
  induction l as [|b l IH]; intros h a Ha; [reflexivity|].
  rewrite update_ratios_cons.
  destruct (truediv (value (h b)) (weight (h b))) as [q|e]; [|reflexivity].
  set (h1 := update_ratio h b (ratio_of h b)).
  assert (E : h1 a = h a).
  { unfold h1, update_ratio. destruct (Nat.eqb_spec a b) as [->|Hne];
      [|reflexivity].
    apply order_ext; cbn; auto. }
  rewrite IH; [exact E|].
  rewrite E, Ha. f_equal. symmetry.
  apply ratio_of_same_contents, update_ratio_same_contents.
Qed.

Lemma update_ratios_idempotent (l : list ref) :
  forall h a,
    snd (update_ratios l (snd (update_ratios l h))) a
    = snd (update_ratios l h) a.
Proof.
  induction l as [|b l IH]; intros h a; [reflexivity|].
  rewrite (update_ratios_cons b l h).
  destruct (truediv (value (h b)) (weight (h b))) as [q|e] eqn:Et.
  - set (h1 := update_ratio h b (ratio_of h b)).
    set (H := snd (update_ratios l h1)).
    assert (Hs1 : same_contents h h1) by apply update_ratio_same_contents.
    assert (HsH : same_contents h H).
    { eapply same_contents_trans; [exact Hs1|].
      apply (update_ratios_frame l h1). }
    assert (Hb : H b = h1 b).
    { apply update_ratios_keeps_ratio.
      unfold h1 at 1, update_ratio. rewrite Nat.eqb_refl. cbn. f_equal.
      symmetry. now apply ratio_of_same_contents. }
    rewrite (update_ratios_cons b l H).
    destruct (HsH b) as [Hvb Hwb].
    rewrite Hvb, Hwb, Et.
    rewrite (update_ratios_ext l (update_ratio H b (ratio_of H b)) H).
    + apply IH.
    + intros c. unfold update_ratio. destruct (Nat.eqb_spec c b) as [->|Hcb];
        [|reflexivity].
      rewrite (ratio_of_same_contents h H b HsH).
      rewrite Hb. unfold h1, update_ratio. rewrite Nat.eqb_refl.
      reflexivity.
  - cbn [snd]. rewrite update_ratios_cons. now rewrite Et.
Qed.

Lemma greedy_heap (orders : list ref) (W : Z) (h : heap) :
  snd (maximum_value_greedy_approx orders W h)
  = if (length (filter (fits h W) orders) =? 0)%nat then h
    else snd (update_ratios (filter (fits h W) orders) h).
Proof.
  unfold maximum_value_greedy_approx. cbv zeta.
  destruct (length (filter (fits h W) orders) =? 0)%nat; [reflexivity|].
  now destruct (update_ratios (filter (fits h W) orders) h) as [[u|e] h'].
Qed.

(** X14: a second greedy call on the same input changes nothing more: it
    leaves every order as the first call left it, also when the call
    raises. *)
Theorem greedy_again_same_heap (orders : list ref) (W : Z) (h : heap) (a : ref) :
  snd (maximum_value_greedy_approx orders W
         (snd (maximum_value_greedy_approx orders W h))) a
  = snd (maximum_value_greedy_approx orders W h) a.
Proof.
  pose proof (greedy_same_contents orders W h) as Hs.
  rewrite (greedy_heap orders W (snd (maximum_value_greedy_approx orders W h))).
  rewrite (filter_fits_same_contents h _ W orders Hs).
  rewrite (greedy_heap orders W h).
  destruct (length (filter (fits h W) orders) =? 0)%nat; [reflexivity|].
  apply update_ratios_idempotent.
Qed.

(** ** The memoization table *)


(** ** The first pick of the greedy solver *)

Lemma SFltb_lex (x y : float) :
  is_number x -> is_number y ->
  (SFltb x y = true <-> lex_lt (rank x) (rank y)).
Proof.
  destruct x as [sx| | |sx mx ex], y as [sy| | |sy my ey];
    cbn [is_number]; try contradiction; intros _ _;
    unfold SFltb, SFcompare, rank, lex_lt.
  - split; [discriminate|lia].
  - destruct sy; split; try discriminate; try lia; reflexivity.
  - destruct sx; split; try discriminate; try lia; reflexivity.
  - change (Pos.compare_cont Eq mx my) with (mx ?= my)%positive.
    destruct sx, sy;
      destruct (Z.compare_spec ex ey);
      destruct (Pos.compare_spec mx my); cbn [CompOpp];
      split; intros Hlt; try discriminate Hlt; try reflexivity;
      try lia.
Qed.

(** [<] on numbers is a strict weak order. *)
Lemma SFltb_asym (x y : float) :
  is_number x -> is_number y -> SFltb x y = true -> SFltb y x = false.
Proof.
  intros Hx Hy Hlt. apply (SFltb_lex x y Hx Hy) in Hlt.
  destruct (SFltb y x) eqn:E; [|reflexivity].
  apply (SFltb_lex y x Hy Hx) in E.
  unfold lex_lt in *. destruct (rank x) as [[? ?] ?], (rank y) as [[? ?] ?]. lia.
Qed.

Lemma SFltb_negtrans (x y z : float) :
  is_number x -> is_number y -> is_number z ->
  SFltb x y = false -> SFltb y z = false -> SFltb x z = false.
Proof.
  intros Hx Hy Hz Hxy Hyz.
  destruct (SFltb x z) eqn:E; [|reflexivity].
  apply (SFltb_lex x z Hx Hz) in E.
  assert (lex_lt (rank x) (rank y) \/ lex_lt (rank y) (rank z)) as [H|H].
  { unfold lex_lt in *.
    destruct (rank x) as [[? ?] ?], (rank y) as [[? ?] ?], (rank z) as [[? ?] ?].
    lia. }
  - apply (SFltb_lex x y Hx Hy) in H. congruence.
  - apply (SFltb_lex y z Hy Hz) in H. congruence.
Qed.

Lemma truediv_number (a b : Z) (q : float) : truediv a b = Ok q -> is_number q.
Proof.
  unfold truediv. destruct (b =? 0); [discriminate|].
  destruct (py_quotient a b); intros E; try discriminate;
    injection E as <-; exact I.
Qed.

Lemma insert_desc_sorted (x : float * ref) (l : list (float * ref)) :
  is_number (fst x) -> Forall (fun y => is_number (fst y)) l ->
  StronglySorted key_ge l -> StronglySorted key_ge (insert_desc x l).
Proof.
  intros Hx Hl Hs. induction Hs as [|y l Hs IH Hy]; cbn [insert_desc].
  - constructor; constructor.
  - inversion Hl as [|? ? Hny Hnl]; subst.
    destruct (SFltb (fst x) (fst y)) eqn:Hlt.
    + constructor; [now apply IH|].
      apply (Permutation_Forall (Permutation_sym (insert_desc_perm x l))).
      constructor; [|assumption]. unfold key_ge. now apply SFltb_asym.
    + constructor.
      * now constructor.
      * constructor; [exact Hlt|].
        rewrite Forall_forall in Hy, Hnl. apply Forall_forall. intros z Hz.
        unfold key_ge in *.
        apply (SFltb_negtrans (fst x) (fst y) (fst z)); auto.
Qed.

Lemma sorted_desc_sorted (l : list (float * ref)) :
  Forall (fun y => is_number (fst y)) l ->
  StronglySorted key_ge (sorted_desc l).
Proof.
  induction 1 as [|x l Hx Hl IH]; cbn; [constructor|].
  apply insert_desc_sorted; auto.
  apply (Permutation_Forall (Permutation_sym (sorted_desc_perm l))).
  assumption.
Qed.

Lemma in_combine_keys (q : ref -> float) (l : list ref) (p : float * ref) :
  In p (combine (map q l) l) <-> exists a, In a l /\ p = (q a, a).
Proof.
  induction l as [|b l IH]; cbn.
  - split; [contradiction|intros (a & [] & _)].
  - rewrite IH. split.
    + intros [<-|(a & Ha & ->)]; [exists b|exists a]; auto.
    + intros (a & [<-|Ha] & ->); [now left|right; now exists a].
Qed.

(** No key is greater than the key of the order [sorted] puts first. *)
Lemma sorted_by_ratio_head (h : heap) (l : list ref) (q : ref -> float)
    (first : ref) (rest : list ref) :
  (forall a, In a l -> ratio (h a) = Some (q a)) ->
  (forall a, In a l -> is_number (q a)) ->
  sorted_by_ratio h l = Ok (first :: rest) ->
  forall b, In b l -> SFltb (q first) (q b) = false.
Proof.
  intros Hr Hnum. unfold sorted_by_ratio.
  rewrite (map_result_ok _ q)
    by (intros a Ha; unfold ratio_key; now rewrite (Hr a Ha)).
  cbn [bind]. intros E b Hb. injection E as E.
  assert (Hkeys : Forall (fun y => is_number (fst y)) (combine (map q l) l)).
  { apply Forall_forall. intros p Hp.
    apply in_combine_keys in Hp as (a & Ha & ->). cbn. now apply Hnum. }
  pose proof (sorted_desc_sorted _ Hkeys) as Hsorted.
  pose proof (sorted_desc_perm (combine (map q l) l)) as Hperm.
  destruct (sorted_desc (combine (map q l) l)) as [|[k a] sd]; [discriminate|].
  cbn in E. injection E as -> _.
  assert (Hhead : In (k, first) (combine (map q l) l))
    by (eapply Permutation_in; [exact Hperm|now left]).
  apply in_combine_keys in Hhead as (a & Ha & Ea). injection Ea as -> ->.
  assert (Hin : In (q b, b) ((q a, a) :: sd)).
  { eapply Permutation_in; [apply Permutation_sym, Hperm|].
    apply in_combine_keys. now exists b. }
  destruct Hin as [Eb|Hin].
  - injection Eb as -> _.
    destruct (SFltb (q b) (q b)) eqn:Hbb; [|reflexivity].
    rewrite (SFltb_asym (q b) (q b)) in Hbb by auto. discriminate.
  - apply StronglySorted_inv in Hsorted as [_ Hall].
    rewrite Forall_forall in Hall. exact (Hall _ Hin).
Qed.

Lemma greedy_fill_value_ge (h : heap) (W : Z) (rest : list ref) :
  forall final_order,
    final_order <> [] ->
    nonneg_values h (final_order ++ rest) ->
    nonneg_weights h (final_order ++ rest) ->
    exists p,
      greedy_fill h W rest final_order
        (mkCounter (total_value (map h final_order))
                   (total_weight (map h final_order))) = Ok p /\
      total_value (map h final_order) <= c_value p.
Proof.
  induction rest as [|a rest IH]; intros fo Hne Hv Hw; cbn [greedy_fill c_weight].
  - eexists; split; [reflexivity|cbn; lia].
  - destruct (total_weight (map h fo) =? W);
      [eexists; split; [reflexivity|cbn; lia]|].
    assert (Hva : 0 <= value (h a)).
    { unfold nonneg_values in Hv. rewrite Forall_app in Hv.
      destruct Hv as [_ Hv]. now inversion Hv. }
    destruct (total_weight (map h fo) + weight (h a) >? W).
    + apply IH; [assumption| |].
      * unfold nonneg_values in *. rewrite Forall_app in *.
        destruct Hv as [? Hv]. inversion Hv. now split.
      * unfold nonneg_weights in *. rewrite Forall_app in *.
        destruct Hw as [? Hw']. inversion Hw'. now split.
    + cbv zeta.
      assert (Hv' : nonneg_values h ((fo ++ [a]) ++ rest))
        by now rewrite <- app_assoc.
      assert (Hw' : nonneg_weights h ((fo ++ [a]) ++ rest))
        by now rewrite <- app_assoc.
      rewrite reduce_payload.
      * cbn [bind]. destruct (IH (fo ++ [a])) as (p & E & Hp); auto.
        -- destruct fo; cbn; discriminate.
        -- exists p. split; [exact E|].
           rewrite map_app, total_value_app in Hp. cbn in Hp. lia.
      * destruct fo; cbn; discriminate.
      * unfold nonneg_values in *. rewrite Forall_app in Hv'. apply Hv'.
      * unfold nonneg_weights in *. rewrite Forall_app in Hw'. apply Hw'.
Qed.

(** X16: with non-negative integer values, positive weights and the ratio
    of every order that fits within the double range, when some order fits,
    the greedy solver returns at least the value of an order that fits and
    whose ratio, as the double [value / weight] evaluates to, is exceeded by
    the ratio of no order that fits. *)
Theorem greedy_at_least_densest (h : heap) (orders : list ref) (W : Z) :
  nonneg_values h orders -> positive_weights h orders ->
  Forall (ratio_defined h) (filter (fits h W) orders) ->
  Exists (fun a => weight (h a) <= W) orders ->
  exists a r,
    In a orders /\ weight (h a) <= W /\
    (forall b, In b orders -> weight (h b) <= W ->
               SFltb (ratio_of h a) (ratio_of h b) = false) /\
    fst (maximum_value_greedy_approx orders W h) = Ok r /\
    value (h a) <= r.
Proof.
  intros Hv Hw Hdef Hex. unfold maximum_value_greedy_approx. cbv zeta.
  set (filtered := filter (fits h W) orders) in *.
  assert (Hfits : forall b, In b filtered <-> In b orders /\ weight (h b) <= W).
  { intros b. unfold filtered. rewrite filter_In. unfold fits.
    rewrite negb_true_iff, Z.gtb_ltb, Z.ltb_ge. reflexivity. }
  assert (Hne : filtered <> []).
  { apply Exists_exists in Hex as (a & Ha & Hfa).
    intros E. assert (Hin : In a filtered) by (apply Hfits; auto).
    rewrite E in Hin. contradiction. }
  replace (length filtered =? 0)%nat with false
    by (symmetry; apply Nat.eqb_neq; destruct filtered; cbn; congruence).
  assert (Hvf : nonneg_values h filtered) by now apply Forall_filter_in.
  assert (Hwf : positive_weights h filtered) by now apply Forall_filter_in.
  destruct (update_ratios_ok filtered h Hdef) as (h' & E & Hr).
  rewrite E. cbn [fst].
  assert (Hnum : forall a, In a filtered -> is_number (ratio_of h a)).
  { intros a Ha. rewrite Forall_forall in Hdef.
    exact (truediv_number _ _ _ (ratio_defined_ok h a (Hdef a Ha))). }
  pose proof (update_ratios_frame filtered h) as [Hs _].
  rewrite E in Hs. cbn [snd] in Hs.
  unfold greedy_result.
  destruct (sorted_by_ratio_perm h' filtered (ratio_of h) Hr) as (s & Es & Hperm).
  rewrite Es. cbn [bind].
  destruct s as [|first rest].
  { apply Permutation_nil in Hperm. contradiction. }
  change (getitem (first :: rest) 0) with (Ok first) at 1. cbn [bind tl].
  assert (Hv' : nonneg_values h' ([first] ++ rest)).
  { unfold nonneg_values. cbn. rewrite Hperm.
    apply (Forall_same_contents (fun x _ => 0 <= x) h h'); assumption. }
  assert (Hw' : nonneg_weights h' ([first] ++ rest)).
  { unfold nonneg_weights. cbn. rewrite Hperm.
    apply (Forall_same_contents (fun _ y => 0 <= y) h h'); [assumption|].
    now apply positive_nonneg_weights. }
  rewrite reduce_payload; try discriminate.
  - cbn [bind].
    destruct (greedy_fill_value_ge h' W rest [first]) as (p & Ep & Hp);
      auto; try discriminate.
    rewrite Ep. cbn [bind].
    assert (Hfirst : In first filtered)
      by (eapply Permutation_in; [exact Hperm|now left]).
    exists first, (c_value p). apply Hfits in Hfirst as [Hin Hfit].
    repeat split; auto.
    + intros b Hb Hbfit.
      apply (sorted_by_ratio_head h' filtered (ratio_of h) first rest Hr Hnum Es).
      apply Hfits. auto.
    + cbn in Hp. destruct (Hs first) as [Hvf1 _]. lia.
  - unfold nonneg_values in *. rewrite Forall_app in Hv'. apply Hv'.
  - unfold nonneg_weights in *. rewrite Forall_app in Hw'. apply Hw'.
Qed.

(** ** The further properties at concrete inputs *)

Lemma zero_weight_valid :
  nonneg_values zero_weight_heap [0%nat; 1%nat] /\
  nonneg_weights zero_weight_heap [0%nat; 1%nat].
Proof. split; concrete_forall. Defined.

Lemma maximum_value_optimal_witness :
  nonneg_values canonical_heap canonical_orders /\
  positive_weights canonical_heap canonical_orders /\
  0 <= 10 /\
  exists r,
    fst (maximum_value canonical_orders 10 canonical_heap) = Ok r /\
    (exists c, subseq c canonical_orders /\
               total_weight (map canonical_heap c) <= 10 /\
               total_value (map canonical_heap c) = r) /\
    (forall c, subseq c canonical_orders ->
               total_weight (map canonical_heap c) <= 10 ->
               total_value (map canonical_heap c) <= r).
Proof.
  split; [apply canonical_valid|]. split; [apply canonical_valid|].
  split; [lia|].
  apply (maximum_value_optimal canonical_heap canonical_orders 10);
    [apply canonical_valid|apply canonical_valid|lia].
Defined.

Lemma maximum_value_permutation_witness :
  nonneg_values canonical_heap canonical_orders /\
  positive_weights canonical_heap canonical_orders /\
  0 <= 10 /\
  Permutation canonical_orders [1%nat; 0%nat; 2%nat; 3%nat] /\
  exists r,
    fst (maximum_value canonical_orders 10 canonical_heap) = Ok r /\
    fst (maximum_value [1%nat; 0%nat; 2%nat; 3%nat] 10 canonical_heap) = Ok r.
Proof.
  assert (Hp : Permutation canonical_orders [1%nat; 0%nat; 2%nat; 3%nat])
    by apply perm_swap.
  split; [apply canonical_valid|]. split; [apply canonical_valid|].
  split; [lia|]. split; [exact Hp|].
  apply (maximum_value_permutation canonical_heap canonical_orders
           [1%nat; 0%nat; 2%nat; 3%nat] 10);
    [apply canonical_valid|apply canonical_valid|lia|exact Hp].
Defined.

Lemma maximum_value_ignores_heavy_witness :
  nonneg_weights canonical_heap canonical_orders /\
  0 <= 5 /\
  exists r,
    fst (maximum_value canonical_orders 5 canonical_heap) = Ok r /\
    fst (maximum_value (filter (fits canonical_heap 5) canonical_orders) 5
           canonical_heap) = Ok r.
Proof.
  assert (Hw : nonneg_weights canonical_heap canonical_orders)
    by concrete_forall.
  split; [exact Hw|]. split; [lia|].
  apply (maximum_value_ignores_heavy canonical_heap canonical_orders 5 Hw).
  lia.
Defined.

Lemma maximum_value_negative_capacity_witness :
  -1 < 0 /\
  fst (maximum_value canonical_orders (-1) canonical_heap) = Raise IndexError.
Proof.
  split; [lia|].
  apply (maximum_value_negative_capacity canonical_heap canonical_orders (-1)).
  lia.
Defined.

Lemma naive_optimal_witness :
  nonneg_values zero_weight_heap [0%nat; 1%nat] /\
  nonneg_weights zero_weight_heap [0%nat; 1%nat] /\
  0 <= 1 /\
  exists r,
    fst (maximum_value_naive [0%nat; 1%nat] 1 zero_weight_heap) = Ok r /\
    (exists c, subseq c [0%nat; 1%nat] /\
               total_weight (map zero_weight_heap c) <= 1 /\
               total_value (map zero_weight_heap c) = r) /\
    (forall c, subseq c [0%nat; 1%nat] ->
               total_weight (map zero_weight_heap c) <= 1 ->
               total_value (map zero_weight_heap c) <= r).
Proof.
  split; [apply zero_weight_valid|]. split; [apply zero_weight_valid|].
  split; [lia|].
  apply (naive_optimal zero_weight_heap [0%nat; 1%nat] 1);
    [apply zero_weight_valid|apply zero_weight_valid|lia].
Defined.


Lemma memoized_agrees_with_naive_witness :
  nonneg_values canonical_heap canonical_orders /\
  positive_weights canonical_heap canonical_orders /\
  0 <= 10 /\
  exists r,
    fst (maximum_value_dynamic_solution_memoized canonical_orders 10 canonical_heap)
    = Ok r /\
    fst (maximum_value_naive canonical_orders 10 canonical_heap) = Ok r.
Proof.
  split; [apply canonical_valid|]. split; [apply canonical_valid|].
  split; [lia|].
  apply (memoized_agrees_with_naive canonical_heap canonical_orders 10);
    [apply canonical_valid|apply canonical_valid|lia].
Defined.

Lemma nothing_fits_witness :
  Forall (fun a => 2 < weight (canonical_heap a)) canonical_orders /\
  fst (maximum_value_naive canonical_orders 2 canonical_heap) = Ok 0 /\
  maximum_value_greedy_approx canonical_orders 2 canonical_heap
  = (Ok 0, canonical_heap).
Proof.
  assert (Hall : Forall (fun a => 2 < weight (canonical_heap a)) canonical_orders)
    by concrete_forall.
  split; [exact Hall|].
  apply (nothing_fits canonical_heap canonical_orders 2 Hall).
Defined.

Lemma greedy_fails_only_at_division_witness :
  (Forall (ratio_defined canonical_heap)
          (filter (fits canonical_heap 10) canonical_orders) /\
   exists r,
     fst (maximum_value_greedy_approx canonical_orders 10 canonical_heap) = Ok r) /\
  (filter (fits zero_weight_heap 1) [0%nat; 1%nat] = [] ++ 0%nat :: [1%nat] /\
   Forall (ratio_defined zero_weight_heap) [] /\
   truediv (value (zero_weight_heap 0%nat)) (weight (zero_weight_heap 0%nat))
   = Raise ZeroDivisionError /\
   fst (maximum_value_greedy_approx [0%nat; 1%nat] 1 zero_weight_heap)
   = Raise ZeroDivisionError /\
   (ZeroDivisionError = ZeroDivisionError /\ weight (zero_weight_heap 0%nat) = 0 \/
    ZeroDivisionError = OverflowError /\ weight (zero_weight_heap 0%nat) <> 0)).
Proof.
  assert (Hsplit : filter (fits zero_weight_heap 1) [0%nat; 1%nat]
                   = [] ++ 0%nat :: [1%nat]) by reflexivity.
  assert (Hzero : truediv (value (zero_weight_heap 0%nat))
                          (weight (zero_weight_heap 0%nat))
                  = Raise ZeroDivisionError) by reflexivity.
  split.
  - split; [apply canonical_ratios|].
    exact (proj1 (greedy_fails_only_at_division canonical_heap
                    canonical_orders 10) canonical_ratios).
  - split; [exact Hsplit|]. split; [constructor|]. split; [exact Hzero|].
    exact (proj2 (greedy_fails_only_at_division zero_weight_heap
                    [0%nat; 1%nat] 1)
                 [] 0%nat [1%nat] ZeroDivisionError Hsplit
                 (Forall_nil _) Hzero).
Defined.

Lemma greedy_feasible_witness :
  nonneg_values canonical_heap canonical_orders /\
  positive_weights canonical_heap canonical_orders /\
  0 <= 10 /\
  Forall (ratio_defined canonical_heap)
         (filter (fits canonical_heap 10) canonical_orders) /\
  exists sel skipped,
    fst (maximum_value_greedy_approx canonical_orders 10 canonical_heap)
    = Ok (total_value (map canonical_heap sel)) /\
    Permutation (sel ++ skipped) canonical_orders /\
    total_weight (map canonical_heap sel) <= 10.
Proof.
  split; [apply canonical_valid|]. split; [apply canonical_valid|].
  split; [lia|]. split; [apply canonical_ratios|].
  apply (greedy_feasible canonical_heap canonical_orders 10);
    [apply canonical_valid|apply canonical_valid|lia|apply canonical_ratios].
Defined.

Lemma greedy_exact_when_all_fit_witness :
  nonneg_values canonical_heap canonical_orders /\
  positive_weights canonical_heap canonical_orders /\
  0 <= 20 /\
  Forall (ratio_defined canonical_heap)
         (filter (fits canonical_heap 20) canonical_orders) /\
  total_weight (map canonical_heap (filter (fits canonical_heap 20) canonical_orders))
  <= 20 /\
  fst (maximum_value_greedy_approx canonical_orders 20 canonical_heap)
  = Ok (total_value
          (map canonical_heap (filter (fits canonical_heap 20) canonical_orders))) /\
  fst (maximum_value canonical_orders 20 canonical_heap)
  = Ok (total_value
          (map canonical_heap (filter (fits canonical_heap 20) canonical_orders))).
Proof.
  assert (Hfit : total_weight
                   (map canonical_heap
                      (filter (fits canonical_heap 20) canonical_orders)) <= 20)
    by (cbv; discriminate).
  assert (Hdef : Forall (ratio_defined canonical_heap)
                    (filter (fits canonical_heap 20) canonical_orders))
    by concrete_ratios.
  split; [apply canonical_valid|]. split; [apply canonical_valid|].
  split; [lia|]. split; [exact Hdef|]. split; [exact Hfit|].
  apply (greedy_exact_when_all_fit canonical_heap canonical_orders 20);
    [apply canonical_valid|apply canonical_valid|lia|exact Hdef|exact Hfit].
Defined.


Lemma greedy_at_least_densest_witness :
  nonneg_values canonical_heap canonical_orders /\
  positive_weights canonical_heap canonical_orders /\
  Forall (ratio_defined canonical_heap)
         (filter (fits canonical_heap 10) canonical_orders) /\
  Exists (fun a => weight (canonical_heap a) <= 10) canonical_orders /\
  exists a r,
    In a canonical_orders /\ weight (canonical_heap a) <= 10 /\
    (forall b, In b canonical_orders -> weight (canonical_heap b) <= 10 ->
               SFltb (ratio_of canonical_heap a) (ratio_of canonical_heap b)
               = false) /\
    fst (maximum_value_greedy_approx canonical_orders 10 canonical_heap) = Ok r /\
    value (canonical_heap a) <= r.
Proof.
  assert (Hex : Exists (fun a => weight (canonical_heap a) <= 10) canonical_orders)
    by (apply Exists_cons_hd; cbv; discriminate).
  split; [apply canonical_valid|]. split; [apply canonical_valid|].
  split; [apply canonical_ratios|]. split; [exact Hex|].
  apply (greedy_at_least_densest canonical_heap canonical_orders 10);
    [apply canonical_valid|apply canonical_valid|apply canonical_ratios
    |exact Hex].
Defined.

Lemma knap_nonneg_any (l : list order) (j : Z) : 0 <= knap l j.
Proof.
  induction l as [|o l IH]; [reflexivity|].
  pose proof (knap_cons_ge o l j). lia.
Qed.

(** X17: with non-negative weights and a non-negative capacity
    [maximum_value] returns a number and never raises, whatever integers
    the values are, and what it returns is never negative: in particular it
    is never the sentinel -1. *)
Theorem maximum_value_returns (h : heap) (orders : list ref) (W : Z) :
  nonneg_weights h orders -> 0 <= W ->
  exists r, fst (maximum_value orders W h) = Ok r /\ 0 <= r.
Proof.
  intros Hw HW. exists (knap (rev (map h orders)) W). split.
  - now apply maximum_value_knap.
  - apply knap_nonneg_any.
Qed.

Lemma maximum_value_returns_witness :
  nonneg_weights canonical_heap canonical_orders /\
  0 <= 10 /\
  exists r, fst (maximum_value canonical_orders 10 canonical_heap) = Ok r /\ 0 <= r.
Proof.
  assert (Hw : nonneg_weights canonical_heap canonical_orders)
    by concrete_forall.
  split; [exact Hw|]. split; [lia|].
  apply (maximum_value_returns canonical_heap canonical_orders 10 Hw). lia.
Defined.

(** X18: the greedy solver returns a number whenever every order that fits
    has a value below [2 ^ 1023] in absolute value and a weight other than
    zero: the quotients [value / weight] are then within the range of a
    double, so that neither [ZeroDivisionError] nor [OverflowError] is
    raised. *)
Theorem greedy_returns_in_range (h : heap) (orders : list ref) (W : Z) :
  Forall (fun a => Z.abs (value (h a)) < 2 ^ 1023 /\ weight (h a) <> 0)
         (filter (fits h W) orders) ->
  Forall (ratio_defined h) (filter (fits h W) orders) /\
  exists r, fst (maximum_value_greedy_approx orders W h) = Ok r.
Proof.
  intros Hrange.
  assert (Hdef : Forall (ratio_defined h) (filter (fits h W) orders)).
  { eapply Forall_impl; [|exact Hrange]. intros a [Hv Hw].
    now apply truediv_in_range. }
  split; [exact Hdef|].
  unfold maximum_value_greedy_approx. cbv zeta.
  set (filtered := filter (fits h W) orders) in *.
  destruct (length filtered =? 0)%nat eqn:Hlen; [now exists 0|].
  apply Nat.eqb_neq in Hlen.
  destruct (update_ratios_ok filtered h Hdef) as (h' & E & Hr).
  rewrite E. cbn [fst].
  apply (greedy_result_ok h' filtered W (ratio_of h)); [|assumption].
  intros E0. rewrite E0 in Hlen. cbn in Hlen. lia.
Qed.

Lemma greedy_returns_in_range_witness :
  Forall (fun a => Z.abs (value (canonical_heap a)) < 2 ^ 1023 /\
                   weight (canonical_heap a) <> 0)
         (filter (fits canonical_heap 10) canonical_orders) /\
  Forall (ratio_defined canonical_heap)
         (filter (fits canonical_heap 10) canonical_orders) /\
  exists r,
    fst (maximum_value_greedy_approx canonical_orders 10 canonical_heap) = Ok r.
Proof.
  assert (Hrange :
            Forall (fun a => Z.abs (value (canonical_heap a)) < 2 ^ 1023 /\
                             weight (canonical_heap a) <> 0)
                   (filter (fits canonical_heap 10) canonical_orders)).
  { repeat first
      [ apply Forall_nil
      | apply Forall_cons;
        [split; [vm_compute; reflexivity | vm_compute; discriminate]|] ]. }
  split; [exact Hrange|].
  exact (greedy_returns_in_range canonical_heap canonical_orders 10 Hrange).
Defined.
